(** * bower-gui: the Bower command wrapper, the socket connection registry
      and the REST error-code table, embedded and verified.

    Sources embedded here:
    - [src/server/bower/BowerManager.ts]  (class [BowerManager])
    - the socket base service              (class [BaseSrv], server side)
    - the REST base service                ([BaseSrv.ERROR_CODES], client side)

    The JavaScript runtime pieces the code relies on ([JSON], the [q]
    deferred, the injected [fs], the socket.io socket) are not part of the
    repository: they appear as interfaces (type classes) or as small
    models of their documented behaviour, each one marked as such.  The
    logger belongs to the repository, but its source is not among the
    files above; it is modelled from the spec. *)

From Stdlib Require Import ZArith List String Ascii Bool Lia.
From Stdlib Require Import DecimalString DecimalFacts DecimalPos DecimalZ.
From stdpp Require Import base option list strings gmap.

Import ListNotations.
Local Open Scope string_scope.
Local Open Scope Z_scope.

Set Warnings "-register-all".

(* ===================================================================== *)
(** ** JavaScript values *)
(* ===================================================================== *)

Module JS.

(** The fragment of JavaScript data the code manipulates.  Numbers are
    the integers (no claim involves fractions); an object is the list of
    its own enumerable properties, in the order in which they are
    enumerated. *)
Inductive value : Type :=
| VUndefined
| VNull
| VBool (b : bool)
| VNum (n : Z)
| VStr (s : string)
| VArr (items : list value)
| VObj (props : list (string * value)).

(** [typeof v] *)
Definition typeof (v : value) : string :=
  match v with
  | VUndefined => "undefined"
  | VNull => "object"
  | VBool _ => "boolean"
  | VNum _ => "number"
  | VStr _ => "string"
  | VArr _ => "object"
  | VObj _ => "object"
  end.

(** ToBoolean: the test of [if (v)] and the operand of [!v]. *)
Definition truthy (v : value) : bool :=
  match v with
  | VUndefined | VNull => false
  | VBool b => b
  | VNum n => negb (n =? 0)
  | VStr s => negb (String.eqb s EmptyString)
  | VArr _ | VObj _ => true
  end.

Definition string_of_Z (n : Z) : string :=
  NilZero.string_of_int (Z.to_int n).

Fixpoint join (sep : string) (l : list string) : string :=
  match l with
  | [] => EmptyString
  | [x] => x
  | x :: rest => x +:+ sep +:+ join sep rest
  end.

(** ToString, as a template literal applies it to [${v}]. *)
Fixpoint to_str (v : value) : string :=
  match v with
  | VUndefined => "undefined"
  | VNull => "null"
  | VBool true => "true"
  | VBool false => "false"
  | VNum n => string_of_Z n
  | VStr s => s
  | VArr items =>
      join ","
        (map (fun x => match x with
                       | VUndefined | VNull => EmptyString
                       | _ => to_str x
                       end) items)
  | VObj _ => "[object Object]"
  end.

Fixpoint assoc (k : string) (props : list (string * value)) : option value :=
  match props with
  | [] => None
  | (k', v) :: rest => if String.eqb k k' then Some v else assoc k rest
  end.

(** What a statement leaves behind: a value, or a thrown exception. *)
Inductive completion (A : Type) : Type :=
| Normal (a : A)
| Throw (exn : value).
Arguments Normal {A} a.
Arguments Throw {A} exn.

Definition TypeError (msg : string) : value :=
  VObj [("name", VStr "TypeError"); ("message", VStr msg)].

Definition SyntaxError (msg : string) : value :=
  VObj [("name", VStr "SyntaxError"); ("message", VStr msg)].

(** [v.k] for a named (non-index) property [k]: reading a property of
    [undefined] or [null] throws a TypeError, a missing property reads
    as [undefined]. *)
Definition get_prop (v : value) (k : string) : completion value :=
  match v with
  | VUndefined | VNull =>
      Throw (TypeError ("Cannot read property '" +:+ k +:+ "' of " +:+ to_str v))
  | VObj props => Normal (default VUndefined (assoc k props))
  | VArr items =>
      Normal (if String.eqb k "length" then VNum (Z.of_nat (length items))
              else VUndefined)
  | VStr s =>
      Normal (if String.eqb k "length" then VNum (Z.of_nat (String.length s))
              else VUndefined)
  | VBool _ | VNum _ => Normal VUndefined
  end.

Definition value_eq_dec : forall a b : value, {a = b} + {a <> b}.
Proof.
  fix IH 1.
  intros a b; decide equality;
    try apply Z.eq_dec; try apply string_dec; try apply bool_dec.
  - apply (List.list_eq_dec IH).
  - apply List.list_eq_dec. intros [k v] [k' v'].
    destruct (string_dec k k') as [->|Hk]; [|right; congruence].
    destruct (IH v v') as [->|Hv]; [left; reflexivity|right; congruence].
Defined.

#[export] Instance value_eq_decision : EqDecision value := value_eq_dec.

End JS.
Export JS.

(* ===================================================================== *)
(** ** The runtime interfaces the manager is built on *)
(* ===================================================================== *)

(** [JSON], the runtime's codec.  [JSON_parse text] is [JSON.parse(text)],
    [JSON_stringify v space] is [JSON.stringify(v, null, space)], which
    yields a string, or [undefined] for a value with no JSON form; either
    may throw. *)
Class Json : Type := {
  JSON_parse : string -> completion value;
  JSON_stringify : value -> nat -> completion value
}.

(** The error objects the commands and the file system hand over
    ([interface IError] of the source). *)
Record IError : Type := mkError { code : string; message : string }.

Definition of_error (e : IError) : value :=
  VObj [("code", VStr (code e)); ("message", VStr (message e))].

(** The first argument of a Node callback: [null], or the error. *)
Definition of_error_arg (e : option IError) : value :=
  match e with
  | None => VNull
  | Some e => of_error e
  end.

(** The injected [fs] object, over a disk state [D].  Each function gives
    the arguments with which the callback is invoked: [readFile] the pair
    (error, data) for a path and an encoding, [writeFile] the error for a
    path and the data, together with the disk after the write.  Failures
    are reported through the callback; the functions themselves do not
    throw. *)
Class Fs (D : Type) : Type := {
  readFile : string -> string -> D -> option IError * value;
  writeFile : string -> value -> D -> option IError * D
}.

(** The [q] deferred.  Once settled, later calls of [resolve] and [reject]
    are ignored. *)
Module Q.

Inductive promise : Type :=
| Pending
| Fulfilled (v : value)
| Rejected (reason : value).

Definition resolve (v : value) (p : promise) : promise :=
  match p with
  | Pending => Fulfilled v
  | _ => p
  end.

Definition reject (reason : value) (p : promise) : promise :=
  match p with
  | Pending => Rejected reason
  | _ => p
  end.

Definition settled (p : promise) : bool :=
  match p with
  | Pending => false
  | _ => true
  end.

(** Whether a promise seen in state [p], then in state [q], has changed. *)
Definition changed (p q : promise) : nat :=
  match p, q with
  | Pending, Pending => 0
  | Fulfilled v, Fulfilled w => if decide (v = w) then 0 else 1
  | Rejected v, Rejected w => if decide (v = w) then 0 else 1
  | _, _ => 1
  end%nat.

(** Number of state changes along the successive states of one promise. *)
Fixpoint transitions (history : list promise) : nat :=
  match history with
  | p :: (q :: _) as rest => (changed p q + transitions rest)%nat
  | _ => 0%nat
  end.

End Q.

(** Modelled from the spec: the logger ([../utils/Logger], absent from the
    sources) is a structured logger exposing leveled calls (trace, info,
    warn, error, and [file.info]) and a continuation-style marker:
    [info] hands back a function that appends to the line it started.
    A logger is the list of the calls made on it. *)
Inductive level : Type :=
| LTrace | LInfo | LWarn | LError | LFileInfo | LContinue.

Record entry : Type := Entry { lvl : level; args : list value }.

(** The function [logger.info] returns. *)
Inductive continuation : Type := ContinueLog.

(* ===================================================================== *)
(** ** BowerManager *)
(* ===================================================================== *)

Module BowerManager.

(** What one call of an operation owns: its deferred, the closure variable
    [continueLog] ([None] is [null]), the lines it wrote to the logger, and
    the exceptions that escaped its callbacks. *)
Record call : Type := mkCall {
  defer : Q.promise;
  continueLog : option continuation;
  logged : list entry;
  uncaught : list value
}.

(** Statements of a callback: they act on the call and complete normally
    or abruptly; what was done before a throw stays done. *)
Definition M (A : Type) : Type := call -> completion A * call.

Definition ret {A} (a : A) : M A := fun st => (Normal a, st).

Definition bind {A B} (m : M A) (k : A -> M B) : M B :=
  fun st =>
    match m st with
    | (Normal a, st') => k a st'
    | (Throw e, st') => (Throw e, st')
    end.

Notation "x <- m ;; k" := (bind m (fun x => k))
  (at level 62, m at next level, right associativity).
Notation "m ;;; k" := (bind m (fun _ => k))
  (at level 62, right associativity).

Definition lift {A} (c : completion A) : M A := fun st => (c, st).

(** [try { body } catch (e) { handler }] *)
Definition try_catch {A} (body : M A) (handler : value -> M A) : M A :=
  fun st =>
    match body st with
    | (Normal a, st') => (Normal a, st')
    | (Throw e, st') => handler e st'
    end.

Definition write_log (l : level) (a : list value) : M unit :=
  fun st => (Normal tt,
             mkCall (defer st) (continueLog st) (logged st ++ [Entry l a]) (uncaught st)).

(** [continueLog(a...)]: calling [null] throws. *)
Definition call_continueLog (a : list value) : M unit :=
  fun st =>
    match continueLog st with
    | Some ContinueLog => write_log LContinue a st
    | None => (Throw (TypeError "continueLog is not a function"), st)
    end.

(** [if (continueLog) { continueLog(a...) }] *)
Definition if_continueLog (a : list value) : M unit :=
  fun st =>
    match continueLog st with
    | Some _ => call_continueLog a st
    | None => (Normal tt, st)
    end.

(** [continueLog = null] *)
Definition clear_continueLog : M unit :=
  fun st => (Normal tt, mkCall (defer st) None (logged st) (uncaught st)).

Definition defer_resolve (v : value) : M unit :=
  fun st => (Normal tt,
             mkCall (Q.resolve v (defer st)) (continueLog st) (logged st) (uncaught st)).

Definition defer_reject (v : value) : M unit :=
  fun st => (Normal tt,
             mkCall (Q.reject v (defer st)) (continueLog st) (logged st) (uncaught st)).

(** The call as an operation leaves it before any callback runs:
    [q.defer()] and [continueLog = this.logger.info("BowerManager", msg)]. *)
Definition start (msg : string) : call :=
  mkCall Q.Pending (Some ContinueLog)
         [Entry LInfo [VStr "BowerManager"; VStr msg]] [].

(** Running a callback from outside (an event emitter, the file system):
    an exception it throws leaves the call as it was at the throw. *)
Definition invoke (m : M unit) (st : call) : call :=
  match m st with
  | (Normal _, st') => st'
  | (Throw e, st') =>
      mkCall (defer st') (continueLog st') (logged st') (uncaught st' ++ [e])
  end.

(** *** The Bower commands *)

(** A progress notification of a Bower command. *)
Record LogEvent : Type := mkLog { id : string; log_message : string; data : value }.

Definition of_log (l : LogEvent) : value :=
  VObj [("id", VStr (id l)); ("message", VStr (log_message l)); ("data", data l)].

(** What a command object emits. *)
Inductive event : Type :=
| EvLog (log : LogEvent)
| EvError (e : IError)
| EvEnd (result : value).

(** The three listeners an operation attaches with [.on(...)], and the
    state of the call when the operation returns its promise. *)
Record listeners : Type := mkListeners {
  initial : call;
  on_log : LogEvent -> M unit;
  on_error : IError -> M unit;
  on_end : value -> M unit
}.

Definition installAll (options : value) : listeners :=
  mkListeners
    (start "attempting to install all packages...")
    (fun log =>
       write_log LTrace [VStr "BowerManager"; VStr "^cINSTALL^:";
                         VStr ("id: " +:+ id log +:+ ", message: " +:+ log_message log)] ;;;
       (if String.eqb (id log) "cached" then
          r1 <- lift (get_prop (data log) "resolver") ;;
          name <- lift (get_prop r1 "name") ;;
          r2 <- lift (get_prop (data log) "resolver") ;;
          source <- lift (get_prop r2 "source") ;;
          r3 <- lift (get_prop (data log) "resolver") ;;
          target <- lift (get_prop r3 "target") ;;
          write_log LTrace [VStr "BowerManager"; VStr "^cINSTALL^:";
                            VStr ("Found cache, package: " +:+ to_str name +:+
                                  ", source: " +:+ to_str source +:+
                                  ", target: " +:+ to_str target)]
        else ret tt) ;;;
       write_log LFileInfo [VStr "BowerManager"; VStr "^cINSTALL^:";
                            VStr ("id: " +:+ id log +:+ ", message: " +:+ log_message log);
                            of_log log])
    (fun e =>
       write_log LError [VStr "BowerManager"; VStr "^rfail^:";
                         VStr ("on uninstall all packages. Code: " +:+ code e +:+
                               ", details: " +:+ message e)] ;;;
       defer_reject (of_error e))
    (fun result =>
       if_continueLog [VStr "^gok^:"] ;;;
       defer_resolve result).

Definition install (name : string) (options : value) : listeners :=
  mkListeners
    (start ("attempting to install the package '" +:+ name +:+ "'..."))
    (fun log => ret tt)
    (fun e =>
       write_log LError [VStr "BowerManager"; VStr "^rfail^:";
                         VStr ("on uninstall '" +:+ name +:+ "'. Code: " +:+ code e +:+
                               ", details: " +:+ message e)] ;;;
       defer_reject (of_error e))
    (fun result =>
       if_continueLog [VStr "^gok^:"] ;;;
       defer_resolve result).

Definition uninstall (name : string) (options : value) : listeners :=
  mkListeners
    (start ("attempting to uninstall the package '" +:+ name +:+ "'..."))
    (fun log =>
       if String.eqb (id log) "not-installed" then
         call_continueLog [VStr "^gok^:"] ;;;
         write_log LWarn [VStr "BowerManager";
                          VStr ("'" +:+ name +:+ "' is not installed. Any change done")] ;;;
         clear_continueLog ;;;
         defer_resolve VNull
       else ret tt)
    (fun e =>
       write_log LError [VStr "BowerManager"; VStr "^rfail^:";
                         VStr ("on uninstall '" +:+ name +:+ "'. Code: " +:+ code e +:+
                               ", details: " +:+ message e)] ;;;
       defer_reject (of_error e))
    (fun result =>
       if_continueLog [VStr "^gok^:"] ;;;
       defer_resolve result).

Definition info (name : string) : listeners :=
  mkListeners
    (start ("retriving package info for '" +:+ name +:+ "'..."))
    (fun _ => ret tt)
    (fun e =>
       if String.eqb (code e) "ENOTFOUND" then
         call_continueLog [VStr "^gok^:"; VStr ("but not found info for '" +:+ name +:+ "'")] ;;;
         defer_resolve VNull
       else
         write_log LError [VStr "BowerManager"; VStr "^rfail^:";
                           VStr ("on get info for '" +:+ name +:+ "'. Code: " +:+ code e +:+
                                 ", details: " +:+ message e)] ;;;
         defer_reject (of_error e))
    (fun result =>
       call_continueLog [VStr "^gok^:"] ;;;
       defer_resolve result).

Definition search (query : string) : listeners :=
  mkListeners
    (start ("search packages for '" +:+ query +:+ "'..."))
    (fun _ => ret tt)
    (fun e =>
       write_log LError [VStr "BowerManager"; VStr "^cfail^:";
                         VStr ("on search packages. Term: " +:+ query +:+ ". Code: " +:+
                               code e +:+ ", details: " +:+ message e)] ;;;
       defer_reject (of_error e))
    (fun results =>
       call_continueLog [VStr "^gok^:"] ;;;
       defer_resolve results).

Definition listPackages : listeners :=
  mkListeners
    (start "retriving packages...")
    (fun e =>
       write_log LTrace [VStr "BowerManager"; VStr (id e +:+ ": " +:+ log_message e)])
    (fun e =>
       write_log LError [VStr "BowerManager"; VStr "^rfail^:";
                         VStr "on retriving packages. Code:"; VStr (code e);
                         VStr ",details:"; VStr (message e)] ;;;
       defer_reject (of_error e))
    (fun info =>
       call_continueLog [VStr "^gok^:"] ;;;
       defer_resolve info).

(** Delivery of one event to the listeners of an operation. *)
Definition deliver (op : listeners) (ev : event) (st : call) : call :=
  match ev with
  | EvLog log => invoke (on_log op log) st
  | EvError e => invoke (on_error op e) st
  | EvEnd result => invoke (on_end op result) st
  end.

(** The call after the command has emitted [evs], in order. *)
Definition run (op : listeners) (evs : list event) : call :=
  fold_left (fun st ev => deliver op ev st) evs (initial op).

(** The successive states of the returned promise: when the operation
    returns, then after each event. *)
Fixpoint states (op : listeners) (evs : list event) (st : call) : list Q.promise :=
  defer st ::
  match evs with
  | [] => []
  | ev :: rest => states op rest (deliver op ev st)
  end.

Definition history (op : listeners) (evs : list event) : list Q.promise :=
  states op evs (initial op).

(** The calls of the six operations that drive a Bower command. *)
Inductive command_call : Type :=
| CallInstallAll (options : value)
| CallInstall (name : string) (options : value)
| CallUninstall (name : string) (options : value)
| CallInfo (name : string)
| CallSearch (query : string)
| CallListPackages.

Definition listeners_of (c : command_call) : listeners :=
  match c with
  | CallInstallAll options => installAll options
  | CallInstall name options => install name options
  | CallUninstall name options => uninstall name options
  | CallInfo name => info name
  | CallSearch query => search query
  | CallListPackages => listPackages
  end.

(** How a command ends. *)
Inductive terminal : Type :=
| Fails (e : IError)
| Ends (result : value).

Definition of_terminal (t : terminal) : event :=
  match t with
  | Fails e => EvError e
  | Ends result => EvEnd result
  end.

(** What a command emits over its life: progress notifications, then one
    terminal event. *)
Definition protocol (logs : list LogEvent) (t : terminal) : list event :=
  map EvLog logs ++ [of_terminal t].

(** A computation that leaves a settled promise as it found it. *)
Definition quiet {A} (m : M A) : Prop :=
  forall st, Q.settled (defer st) = true -> defer (snd (m st)) = defer st.

(** While the promise is pending, [continueLog] still holds the function
    the logger returned. *)
Definition armed (st : call) : Prop :=
  defer st = Q.Pending -> continueLog st = Some ContinueLog.

(** *** The configuration file *)

Section ConfigFile.

Context {json : Json} {D : Type} {fs : Fs D}.

(** The callback [setConfigFile] passes to [fs.writeFile]. *)
Definition setConfigFile_written (err : option IError) : M unit :=
  match err with
  | None =>
      call_continueLog [VStr "^gok^:"] ;;;
      defer_resolve (VBool true)
  | Some e =>
      details <- lift (get_prop (of_error e) "details") ;;
      write_log LError [VStr "BowerManager"; VStr "^rfail^:";
                        VStr "on writting bower.json file:"; details] ;;;
      defer_reject (of_error e)
  end.

(** [setConfigFile(config)]: the call, and the disk once the write is
    over.  The [try] covers the serialisation and the call of
    [fs.writeFile], not the callback, which runs from the file system. *)
Definition setConfigFile (config : value) (disk : D) : call * D :=
  let st := start "writting config file..." in
  match (if negb (String.eqb (typeof config) "string")
         then JSON_stringify config 2
         else Normal config) with
  | Normal text =>
      let '(err, disk') := writeFile "bower.json" text disk in
      (invoke (setConfigFile_written err) st, disk')
  | Throw e =>
      (invoke (defer_reject e ;;;
               details <- lift (get_prop e "details") ;;
               write_log LError [VStr "BowerManager"; VStr "^rfail^:";
                                 VStr "on writting bower.json file:"; details]) st,
       disk)
  end.

(** The callback [getConfigFile] passes to [fs.readFile]. *)
Definition getConfigFile_read (error : option IError) (data : value) : M unit :=
  match error with
  | None =>
      try_catch
        (result <- lift (JSON_parse (to_str data)) ;;
         call_continueLog [VStr "^gok^:"] ;;;
         defer_resolve data)
        (fun e =>
           defer_reject (of_error_arg error) ;;;
           msg <- lift (get_prop (of_error_arg error) "message") ;;
           write_log LError [VStr "BowerManager"; VStr "^rfail^:";
                             VStr "on get bower.json file:"; msg])
  | Some err =>
      if String.eqb (code err) "ENOENT" then
        defer_resolve VNull ;;;
        call_continueLog [VStr "^gok^:"; VStr "but not config file found"]
      else
        defer_reject (of_error err) ;;;
        write_log LError [VStr "BowerManager"; VStr "^rfail^:";
                          VStr "on get bower.json file:"; VStr (message err)]
  end.

(** [getConfigFile()] *)
Definition getConfigFile (disk : D) : call :=
  let st := start "retriving config file..." in
  let '(error, data) := readFile "bower.json" "utf8" disk in
  invoke (getConfigFile_read error data) st.

(** The states of the promise [setConfigFile] returns: when the deferred
    is made, and when the write is over. *)
Definition setConfigFile_history (config : value) (disk : D) : list Q.promise :=
  [defer (start "writting config file..."); defer (fst (setConfigFile config disk))].

(** The states of the promise [getConfigFile] returns: when the deferred
    is made, and when the read is over. *)
Definition getConfigFile_history (disk : D) : list Q.promise :=
  [defer (start "retriving config file..."); defer (getConfigFile disk)].

End ConfigFile.

End BowerManager.

(* ===================================================================== *)
(** ** A runtime to run the manager on *)
(* ===================================================================== *)

(** An instance of [Json] after ECMA-262 ([JSON.stringify] with a numeric
    [space], [JSON.parse]) on the values above: numbers are integers, and
    a number with a fraction or an exponent is outside this instance, as is
    a [\u] escape above 255. *)
Module Ecma.

Definition dquote : ascii := ascii_of_nat 34.
Definition backslash : ascii := ascii_of_nat 92.
Definition newline : string := String (ascii_of_nat 10) EmptyString.

Definition hex_digit (n : nat) : ascii :=
  ascii_of_nat (if Nat.ltb n 10 then 48 + n else 87 + n).

(** QuoteJSONString, one code unit. *)
Definition quote_char (c : ascii) : string :=
  let n := nat_of_ascii c in
  if Nat.eqb n 34 then String backslash (String dquote EmptyString)
  else if Nat.eqb n 92 then String backslash (String backslash EmptyString)
  else if Nat.eqb n 8 then String backslash "b"
  else if Nat.eqb n 12 then String backslash "f"
  else if Nat.eqb n 10 then String backslash "n"
  else if Nat.eqb n 13 then String backslash "r"
  else if Nat.eqb n 9 then String backslash "t"
  else if Nat.ltb n 32 then
    String backslash
      ("u00" +:+ String (hex_digit (Nat.div n 16)) (String (hex_digit (Nat.modulo n 16)) EmptyString))
  else String c EmptyString.

Fixpoint quote_chars (s : string) : string :=
  match s with
  | EmptyString => EmptyString
  | String c rest => quote_char c +:+ quote_chars rest
  end.

Definition quote (s : string) : string :=
  String dquote (quote_chars s +:+ String dquote EmptyString).

Fixpoint spaces (n : nat) : string :=
  match n with
  | O => EmptyString
  | S n' => String " " (spaces n')
  end.

Definition is_empty (s : string) : bool :=
  match s with
  | EmptyString => true
  | String _ _ => false
  end.

(** The text of a non-empty array or object from the texts of its parts. *)
Definition wrap (gap opening closing indent stepback : string) (partial : list string) : string :=
  if is_empty gap then opening +:+ join "," partial +:+ closing
  else
    opening +:+ newline +:+ indent +:+
    join ("," +:+ newline +:+ indent) partial +:+
    newline +:+ stepback +:+ closing.

(** SerializeJSONProperty; [None] is [undefined]. *)
Fixpoint serialize (gap indent : string) (v : value) : option string :=
  match v with
  | VUndefined => None
  | VNull => Some "null"
  | VBool true => Some "true"
  | VBool false => Some "false"
  | VNum n => Some (string_of_Z n)
  | VStr s => Some (quote s)
  | VArr items =>
      let partial :=
        map (fun x => default "null" (serialize gap (indent +:+ gap) x)) items in
      Some (match partial with
            | [] => "[]"
            | _ => wrap gap "[" "]" (indent +:+ gap) indent partial
            end)
  | VObj props =>
      let partial :=
        omap (fun kv =>
                match serialize gap (indent +:+ gap) (snd kv) with
                | Some s =>
                    Some (quote (fst kv) +:+ (if is_empty gap then ":" else ": ") +:+ s)
                | None => None
                end) props in
      Some (match partial with
            | [] => "{}"
            | _ => wrap gap "{" "}" (indent +:+ gap) indent partial
            end)
  end.

(** [JSON.stringify(v, null, space)] *)
Definition stringify (v : value) (space : nat) : completion value :=
  Normal (match serialize (spaces (Nat.min 10 space)) EmptyString v with
          | Some s => VStr s
          | None => VUndefined
          end).

Definition is_ws (c : ascii) : bool :=
  let n := nat_of_ascii c in
  Nat.eqb n 32 || Nat.eqb n 9 || Nat.eqb n 10 || Nat.eqb n 13.

Definition is_digit (c : ascii) : bool :=
  let n := nat_of_ascii c in Nat.leb 48 n && Nat.leb n 57.

Fixpoint skip_ws (s : string) : string :=
  match s with
  | String c rest => if is_ws c then skip_ws rest else s
  | EmptyString => s
  end.

(** [expect w s]: [s] without its prefix [w]. *)
Fixpoint expect (w s : string) : option string :=
  match w, s with
  | EmptyString, _ => Some s
  | String a w', String b s' => if Ascii.eqb a b then expect w' s' else None
  | _, EmptyString => None
  end.

(** The decimal digit a character stands for. *)
Definition digit_of_char (c : ascii) : option (Decimal.uint -> Decimal.uint) :=
  let n := nat_of_ascii c in
  if Nat.eqb n 48 then Some Decimal.D0
  else if Nat.eqb n 49 then Some Decimal.D1
  else if Nat.eqb n 50 then Some Decimal.D2
  else if Nat.eqb n 51 then Some Decimal.D3
  else if Nat.eqb n 52 then Some Decimal.D4
  else if Nat.eqb n 53 then Some Decimal.D5
  else if Nat.eqb n 54 then Some Decimal.D6
  else if Nat.eqb n 55 then Some Decimal.D7
  else if Nat.eqb n 56 then Some Decimal.D8
  else if Nat.eqb n 57 then Some Decimal.D9
  else None.

(** The digits at the head of [s], and what follows them. *)
Fixpoint numeral (s : string) : Decimal.uint * string :=
  match s with
  | String c rest =>
      match digit_of_char c with
      | Some digit => let '(d, r) := numeral rest in (digit d, r)
      | None => (Decimal.Nil, s)
      end
  | EmptyString => (Decimal.Nil, s)
  end.

(** Whether [s] can follow an integer literal: not a digit, and not the
    start of a fraction or of an exponent. *)
Definition ends_integer (s : string) : bool :=
  match s with
  | String c _ =>
      negb (is_digit c || Ascii.eqb c "." || Ascii.eqb c "e" || Ascii.eqb c "E")
  | EmptyString => true
  end.

(** An integer literal: no leading zero, no fraction, no exponent. *)
Definition unsigned (s : string) : option (Z * string) :=
  let '(d, rest) := numeral s in
  if negb (ends_integer rest) then None
  else
    match d with
    | Decimal.Nil => None
    | Decimal.D0 Decimal.Nil => Some (0, rest)
    | Decimal.D0 _ => None
    | _ => Some (Z.of_uint d, rest)
    end.

Definition hex_value (c : ascii) : option nat :=
  let n := nat_of_ascii c in
  if Nat.leb 48 n && Nat.leb n 57 then Some (n - 48)%nat
  else if Nat.leb 97 n && Nat.leb n 102 then Some (n - 87)%nat
  else if Nat.leb 65 n && Nat.leb n 70 then Some (n - 55)%nat
  else None.

(** The characters of a string literal after its opening quote. *)
Fixpoint string_body (s : string) : option (string * string) :=
  match s with
  | EmptyString => None
  | String c rest =>
      if Ascii.eqb c dquote then Some (EmptyString, rest)
      else if Ascii.eqb c backslash then
        match rest with
        | String e rest' =>
            let continue (x : ascii) (tail : string) :=
              match string_body tail with
              | Some (body, r) => Some (String x body, r)
              | None => None
              end in
            if Ascii.eqb e dquote then continue dquote rest'
            else if Ascii.eqb e backslash then continue backslash rest'
            else if Ascii.eqb e "/" then continue "/"%char rest'
            else if Ascii.eqb e "b" then continue (ascii_of_nat 8) rest'
            else if Ascii.eqb e "f" then continue (ascii_of_nat 12) rest'
            else if Ascii.eqb e "n" then continue (ascii_of_nat 10) rest'
            else if Ascii.eqb e "r" then continue (ascii_of_nat 13) rest'
            else if Ascii.eqb e "t" then continue (ascii_of_nat 9) rest'
            else if Ascii.eqb e "u" then
              match rest' with
              | String h1 (String h2 (String h3 (String h4 tail))) =>
                  match hex_value h1, hex_value h2, hex_value h3, hex_value h4 with
                  | Some 0%nat, Some 0%nat, Some a, Some b =>
                      continue (ascii_of_nat (16 * a + b)) tail
                  | _, _, _, _ => None
                  end
              | _ => None
              end
            else None
        | EmptyString => None
        end
      else if Nat.ltb (nat_of_ascii c) 32 then None
      else
        match string_body rest with
        | Some (body, r) => Some (String c body, r)
        | None => None
        end
  end.

(** CreateDataProperty on an object under construction: a repeated key
    keeps its place and takes the new value. *)
Fixpoint set_prop (k : string) (v : value) (props : list (string * value)) :
  list (string * value) :=
  match props with
  | [] => [(k, v)]
  | (k', v') :: rest =>
      if String.eqb k k' then (k, v) :: rest else (k', v') :: set_prop k v rest
  end.

Section Parser.

Variable parse_value : string -> option (value * string).

(** The elements of an array after the first token was seen not to be
    a closing bracket. *)
Fixpoint elements (fuel : nat) (s : string) : option (list value * string) :=
  match fuel with
  | O => None
  | S fuel' =>
      match parse_value s with
      | Some (v, rest) =>
          match skip_ws rest with
          | String c rest' =>
              if Ascii.eqb c "," then
                match elements fuel' rest' with
                | Some (vs, r) => Some (v :: vs, r)
                | None => None
                end
              else if Ascii.eqb c "]" then Some ([v], rest')
              else None
          | EmptyString => None
          end
      | None => None
      end
  end.

(** The members of an object, added to [acc]. *)
Fixpoint members (fuel : nat) (acc : list (string * value)) (s : string) :
  option (list (string * value) * string) :=
  match fuel with
  | O => None
  | S fuel' =>
      match skip_ws s with
      | String q rest =>
          if negb (Ascii.eqb q dquote) then None
          else
            match string_body rest with
            | Some (k, rest1) =>
                match skip_ws rest1 with
                | String colon rest2 =>
                    if negb (Ascii.eqb colon ":") then None
                    else
                      match parse_value rest2 with
                      | Some (v, rest3) =>
                          match skip_ws rest3 with
                          | String c rest4 =>
                              if Ascii.eqb c "," then members fuel' (set_prop k v acc) rest4
                              else if Ascii.eqb c "}" then Some (set_prop k v acc, rest4)
                              else None
                          | EmptyString => None
                          end
                      | None => None
                      end
                | EmptyString => None
                end
            | None => None
            end
      | EmptyString => None
      end
  end.

End Parser.

Fixpoint parse_value (fuel : nat) (s : string) : option (value * string) :=
  match fuel with
  | O => None
  | S fuel' =>
      match skip_ws s with
      | EmptyString => None
      | String c rest =>
          if Ascii.eqb c "n" then option_map (pair VNull) (expect "ull" rest)
          else if Ascii.eqb c "t" then option_map (pair (VBool true)) (expect "rue" rest)
          else if Ascii.eqb c "f" then option_map (pair (VBool false)) (expect "alse" rest)
          else if Ascii.eqb c dquote then
            match string_body rest with
            | Some (str, r) => Some (VStr str, r)
            | None => None
            end
          else if Ascii.eqb c "-" then
            match unsigned rest with
            | Some (n, r) => Some (VNum (- n), r)
            | None => None
            end
          else if is_digit c then
            match unsigned (String c rest) with
            | Some (n, r) => Some (VNum n, r)
            | None => None
            end
          else if Ascii.eqb c "[" then
            match skip_ws rest with
            | String d r =>
                if Ascii.eqb d "]" then Some (VArr [], r)
                else
                  match elements (parse_value fuel') fuel' rest with
                  | Some (vs, r') => Some (VArr vs, r')
                  | None => None
                  end
            | EmptyString => None
            end
          else if Ascii.eqb c "{" then
            match skip_ws rest with
            | String d r =>
                if Ascii.eqb d "}" then Some (VObj [], r)
                else
                  match members (parse_value fuel') fuel' [] rest with
                  | Some (props, r') => Some (VObj props, r')
                  | None => None
                  end
            | EmptyString => None
            end
          else None
      end
  end.

(** [JSON.parse(text)] *)
Definition parse (text : string) : completion value :=
  match parse_value (S (String.length text)) text with
  | Some (v, rest) =>
      match skip_ws rest with
      | EmptyString => Normal v
      | String _ _ => Throw (SyntaxError "Unexpected token in JSON")
      end
  | None => Throw (SyntaxError "Unexpected token in JSON")
  end.

(** The values [JSON] carries as they are: no [undefined] inside, and
    the keys of an object distinct. *)
Fixpoint distinct (keys : list string) : bool :=
  match keys with
  | [] => true
  | k :: rest => negb (existsb (String.eqb k) rest) && distinct rest
  end.

Fixpoint plain (v : value) : bool :=
  match v with
  | VUndefined => false
  | VNull | VBool _ | VNum _ | VStr _ => true
  | VArr items => forallb plain items
  | VObj props => forallb (fun kv => plain (snd kv)) props && distinct (map fst props)
  end.

(** The text of a value other than [undefined]. *)
Definition text (gap indent : string) (v : value) : string :=
  default "null" (serialize gap indent v).

(** Fuel that [parse_value] needs on the text of a value. *)
Fixpoint need (v : value) : nat :=
  match v with
  | VArr items => S (list_sum (map (fun x => S (need x)) items))
  | VObj props => S (list_sum (map (fun kv => S (need (snd kv))) props))
  | _ => 1%nat
  end.

Fixpoint all_ws (s : string) : bool :=
  match s with
  | EmptyString => true
  | String c rest => is_ws c && all_ws rest
  end.

(** Two spaces, the gap of [JSON.stringify(v, null, 2)]. *)
Definition gap : string := spaces 2.

(** The text of one member of an object. *)
Definition member (ind : string) (kv : string * value) : string :=
  quote (fst kv) +:+ ": " +:+ text gap ind (snd kv).

(** What parsing the text of [v] must give, whatever the indentation,
    the text that follows and the fuel above [need v]. *)
Definition parses_back (v : value) : Prop :=
  plain v = true ->
  forall (indent rest : string) (fuel : nat),
    all_ws indent = true -> ends_integer rest = true -> (need v <= fuel)%nat ->
    parse_value fuel (text gap indent v +:+ rest) = Some (v, rest).

(** A text that starts as a value does, as the parser of arrays and
    objects needs it: no white space and no closing bracket. *)
Definition opens_value (s : string) : Prop :=
  exists c tail, s = String c tail /\ is_ws c = false /\
                 Ascii.eqb c "]" = false /\ Ascii.eqb c "}" = false.

#[global] Instance json : Json := {|
  JSON_parse := parse;
  JSON_stringify := stringify
|}.

End Ecma.

(** An in-memory file system to inject as [fs]: files by path, and a
    switch that makes every write fail.  Data that is not a string is
    written as its string form. *)
Module MemFs.

Record disk : Type := mkDisk { files : gmap string string; read_only : bool }.

Definition ENOENT (path : string) : IError :=
  mkError "ENOENT" ("ENOENT: no such file or directory, open '" +:+ path +:+ "'").

Definition EROFS (path : string) : IError :=
  mkError "EROFS" ("EROFS: read-only file system, open '" +:+ path +:+ "'").

Definition read (path encoding : string) (d : disk) : option IError * value :=
  match files d !! path with
  | Some text => (None, VStr text)
  | None => (Some (ENOENT path), VUndefined)
  end.

Definition write (path : string) (data : value) (d : disk) : option IError * disk :=
  if read_only d then (Some (EROFS path), d)
  else (None, mkDisk (<[path := to_str data]> (files d)) (read_only d)).

#[global] Instance fs : Fs disk := {|
  readFile := read;
  writeFile := write
|}.

Definition empty : disk := mkDisk ∅ false.

End MemFs.

(* ===================================================================== *)
(** ** The socket base service *)
(* ===================================================================== *)

(** [Map<string, V>] as ECMA-262 keeps it: the list of entries in
    insertion order, where deleting empties an entry in place, so that an
    iterator, which is an index into that list, stays valid while entries
    are deleted under it. *)
Module EsMap.

Section Entries.

Context {V : Type}.

Definition t : Type := list (option (string * V)).

Definition has_key (k : string) (e : option (string * V)) : bool :=
  match e with
  | Some (k', _) => String.eqb k k'
  | None => false
  end.

(** The live entries, in order. *)
Definition entries (m : t) : list (string * V) := omap (fun e => e) m.

Definition size (m : t) : nat := length (entries m).

Fixpoint set (k : string) (v : V) (m : t) : t :=
  match m with
  | [] => [Some (k, v)]
  | e :: rest => if has_key k e then Some (k, v) :: rest else e :: set k v rest
  end.

Fixpoint delete (k : string) (m : t) : t :=
  match m with
  | [] => []
  | e :: rest => if has_key k e then None :: rest else e :: delete k rest
  end.

Definition clear (m : t) : t := map (fun _ => None) m.

End Entries.

Arguments t V : clear implicits.

(** [for (let v of m.values()) body(v)], where [m] is read from the state
    at each step.  [None]: the fuel ran out before the iterator was done. *)
Fixpoint for_of_values {V St : Type} (read : St -> t V) (body : V -> St -> St)
    (fuel index : nat) (st : St) : option St :=
  match read st !! index with
  | None => Some st
  | Some e =>
      match fuel with
      | O => None
      | S fuel' =>
          for_of_values read body fuel' (S index)
            (match e with
             | Some (_, v) => body v st
             | None => st
             end)
      end
  end.

End EsMap.

Module BaseSrv.

(** A socket.io socket as the service sees it: its id, whether this
    service's ["disconnect"] listener is attached to it, and whether it
    emits ["disconnect"] before [disconnect(close)] returns or leaves that
    to a later turn of the event loop. *)
Record Socket : Type := mkSocket {
  id : string;
  listening : bool;
  emits_within_disconnect : bool
}.

(** The service: its name, the connection registry, the lines written to
    its logger, and the [disconnect(close)] calls made on sockets. *)
Record service : Type := mkService {
  name : string;
  connections : EsMap.t Socket;
  log : list entry;
  disconnect_calls : list (string * bool)
}.

Definition write_log (l : level) (text : string) (srv : service) : service :=
  mkService (name srv) (connections srv)
            (log srv ++ [Entry l [VStr (name srv); VStr text]])
            (disconnect_calls srv).

Definition with_connections (f : EsMap.t Socket -> EsMap.t Socket) (srv : service) : service :=
  mkService (name srv) (f (connections srv)) (log srv) (disconnect_calls srv).

Definition connection_count (srv : service) : string :=
  string_of_Z (Z.of_nat (EsMap.size (connections srv))).

Definition _onClientDisconnect (socket : Socket) (srv : service) : service :=
  let srv := write_log LInfo ("Client disconnected. Now there are " +:+
                              connection_count srv +:+ " connection/s") srv in
  let srv := with_connections (EsMap.delete (id socket)) srv in
  write_log LTrace ("Client disconnected id '" +:+ id socket +:+ "'") srv.

(** [_onClientConnect(socket)]; [_registerEvents] is abstract and
    [_onCompleteConnectionProcess] is empty in this class. *)
Definition _onClientConnect (socket : Socket) (srv : service) : service :=
  let socket := mkSocket (id socket) true (emits_within_disconnect socket) in
  let srv := with_connections (EsMap.set (id socket) socket) srv in
  let srv := write_log LInfo ("New client connected. Now there are " +:+
                              connection_count srv +:+ " connection/s") srv in
  write_log LTrace ("Client id '" +:+ id socket +:+ "'") srv.

(** Whether [disconnect] on this socket runs the service's listener
    before it returns. *)
Definition answers_within (socket : Socket) : bool :=
  listening socket && emits_within_disconnect socket.

(** [socket.disconnect(close)] *)
Definition disconnect (socket : Socket) (close : bool) (srv : service) : service :=
  let srv := mkService (name srv) (connections srv) (log srv)
                       (disconnect_calls srv ++ [(id socket, close)]) in
  if answers_within socket
  then _onClientDisconnect socket srv
  else srv.

(** The body of the loop of [disconnectAll]. *)
Definition disconnectAll_body (connection : Socket) (srv : service) : service :=
  let srv := write_log LTrace ("Disconecting '" +:+ id connection +:+ "'") srv in
  disconnect connection true srv.

(** [disconnectAll()]; the iterator is given as many steps as the
    registry has entries when the loop starts, and [None] would mean that
    it was not done within them. *)
Definition disconnectAll (srv : service) : option service :=
  let srv := write_log LTrace "Disconecting all..." srv in
  match EsMap.for_of_values connections disconnectAll_body
          (length (connections srv)) 0 srv with
  | Some srv =>
      let srv := write_log LInfo ("Disconected " +:+ connection_count srv) srv in
      Some (with_connections EsMap.clear srv)
  | None => None
  end.

(** The constructor, for a service name and an optional namespace
    ([_init] is empty in this class). *)
Definition create (name : string) (namespace : option string) : service :=
  let srv := mkService name [] [] [] in
  let srv := write_log LTrace "Initializing..." srv in
  match namespace with
  | Some ns =>
      if truthy (VStr ns)
      then write_log LTrace ("Namespace provided, using '" +:+ ns +:+ "'") srv
      else srv
  | None => srv
  end.

(** A registry as [_onClientConnect] builds it: keys are distinct, and a
    socket is filed under its own id. *)
Definition registry_ok (m : EsMap.t Socket) : Prop :=
  NoDup (map fst (EsMap.entries m)) /\
  Forall (fun kv => fst kv = id (snd kv)) (EsMap.entries m).

(** An entry of the registry once [disconnect] was called on its socket. *)
Definition after_disconnect (e : option (string * Socket)) : option (string * Socket) :=
  match e with
  | Some (k, s) => if answers_within s then None else Some (k, s)
  | None => None
  end.

(** The line [disconnectAll] ends with. *)
Definition summary (srv_name : string) (count : nat) : entry :=
  Entry LInfo [VStr srv_name; VStr ("Disconected " +:+ string_of_Z (Z.of_nat count))].

End BaseSrv.

(* ===================================================================== *)
(** ** The REST base service *)
(* ===================================================================== *)

Module RestBaseSrv.

(** [BaseSrv.ERROR_CODES], the properties of the object in source order. *)
Definition ERROR_CODES : list (string * Z) :=
  [ ("invalid", 0);
    ("resourceNotFound", 10);
    ("unknow", 20);
    ("badRequest", 400);
    ("notAuthorized", 401);
    ("notFound", 404);
    ("timeout", 408);
    ("entityToLarge", 413);
    ("methodNotAllowed", 415);
    ("tooManyRequests", 429);
    ("error", 500);
    ("notAvailable", 503) ].

(** [BaseSrv.ERROR_CODES[name]]; [None] is [undefined]. *)
Fixpoint lookup_code (name : string) (table : list (string * Z)) : option Z :=
  match table with
  | [] => None
  | (k, n) :: rest => if String.eqb name k then Some n else lookup_code name rest
  end.

End RestBaseSrv.

(** *** Requests of the REST base service *)

(** The rest of the client-side class [BaseSrv]: [_parseResult],
    [_onSuccess], [_onError], [_makeRequest] and its four helpers.  The
    jQuery deferred and Angular's [$http] are runtime pieces: the deferred
    is modelled by its state, [$http] is a parameter. *)
Module RestClient.

(** A [$.Deferred()]: pending, or settled with the context ([None] is the
    promise itself, as after [resolve] and [reject]) and the arguments its
    callbacks receive.  Once settled, later calls are ignored. *)
Inductive deferred : Type :=
| Pending
| Resolved (context : option value) (args : list value)
| Rejected (context : option value) (args : list value).

Definition resolveWith (context : option value) (args : list value) (d : deferred) : deferred :=
  match d with
  | Pending => Resolved context args
  | _ => d
  end.

Definition rejectWith (context : option value) (args : list value) (d : deferred) : deferred :=
  match d with
  | Pending => Rejected context args
  | _ => d
  end.

(** The object [req._data], without [instance] and [deferred], which are
    the service and the deferred threaded below; it has no [data]
    property. *)
Record call_data : Type := mkData {
  cd_method : string;
  cd_params : value;
  cd_context : value;
  cd_shared : value
}.

(** The descriptor handed to [$http]; [None] is a property that was not
    set. *)
Record request : Type := mkRequest {
  method : string;
  url : string;
  headers : list (string * string);
  params : option value;
  data : option value;
  _data : call_data
}.

(** What [$http] answers: whether it succeeded, and the fields of the
    response the handlers read.  The [config] of the response is the
    request. *)
Record answer : Type := mkAnswer {
  ok : bool;
  body : value;
  status : value;
  statusText : value
}.

(** [v.k] for a value that is neither [null] nor [undefined]. *)
Definition read (v : value) (k : string) : value :=
  match get_prop v k with
  | Normal x => x
  | Throw _ => VUndefined
  end.

(** [a || b] *)
Definition or_else (a b : value) : value := if truthy a then a else b.

(** The base [_parseResult(method, params, data)]. *)
Definition _parseResult (method : string) (params data : value) : completion value :=
  Normal data.

Section Service.

(** The [_parseResult] of the instance (a subclass may override it, and
    an override may throw) and the injected [$http]. *)
Variable parseResult : string -> value -> value -> completion value.
Variable http : request -> answer.

(** [_onSuccess(response)], on the deferred of the request; what the
    parse hook throws leaves the handler before the deferred is
    touched. *)
Definition _onSuccess (config : request) (response : answer) (d : deferred) :
  completion deferred :=
  match parseResult (cd_method (_data config))
          (or_else (cd_params (_data config)) VUndefined)
          (body response) with
  | Normal data =>
      Normal
        (if truthy (cd_context (_data config))
         then resolveWith (Some (cd_context (_data config)))
                [data; cd_shared (_data config)] d
         else resolveWith None [data; cd_shared (_data config)] d)
  | Throw exn => Throw exn
  end.

(** [_onError(response)], on the deferred of the request. *)
Definition _onError (config : request) (response : answer) (d : deferred) : deferred :=
  let reason := VObj [("message", statusText response); ("error", status response)] in
  if truthy (cd_context (_data config))
  then rejectWith (Some (cd_context (_data config))) [reason; cd_shared (_data config)] d
  else rejectWith None [reason; cd_shared (_data config)] d.

(** [_makeRequest(method, type, url, data, config)]: the descriptor
    [$http] received, and the deferred once [$http] has answered.  The
    handlers run inside [then] of the promise of [$http], which catches
    what they throw: the deferred is then left as it was. *)
Definition _makeRequest (method type url : string) (data config : value) :
  request * deferred :=
  let config := or_else config (VObj []) in
  let req :=
    mkRequest type url [("Content-Type", "application/json")]
      (if String.eqb type "GET" then Some data else None)
      (if String.eqb type "GET" then None else Some data)
      (mkData method data (read config "context") (read config "share")) in
  let response := http req in
  (req, if ok response
        then match _onSuccess req response Pending with
             | Normal d => d
             | Throw _ => Pending
             end
        else _onError req response Pending).

Definition _makeDelete (method url : string) (data config : value) : request * deferred :=
  _makeRequest method "DELETE" url data config.

Definition _makePost (method url : string) (data config : value) : request * deferred :=
  _makeRequest method "POST" url data config.

Definition _makePut (method url : string) (data config : value) : request * deferred :=
  _makeRequest method "PUT" url data config.

Definition _makeGet (method url : string) (data config : value) : request * deferred :=
  _makeRequest method "GET" url data config.

End Service.

End RestClient.

(** *** Observations on runs *)

(** The lines of a log written at a level. *)
Definition at_level (l : level) (e : entry) : bool :=
  match l, lvl e with
  | LTrace, LTrace | LInfo, LInfo | LWarn, LWarn
  | LError, LError | LFileInfo, LFileInfo | LContinue, LContinue => true
  | _, _ => false
  end.

Definition lines_at (l : level) (log : list entry) : list entry :=
  List.filter (at_level l) log.

(** A run of a command in which [uninstall] is not told that the package
    is not installed. *)
Definition ordinary (c : BowerManager.command_call) (logs : list BowerManager.LogEvent) : Prop :=
  match c with
  | BowerManager.CallUninstall _ _ =>
      Forall (fun l => BowerManager.id l <> "not-installed") logs
  | _ => True
  end.

(** A runtime whose [JSON.stringify] finds no JSON form (as for a
    circular structure) and throws. *)
Definition circular_json : Json := {|
  JSON_parse := Ecma.parse;
  JSON_stringify := fun _ _ =>
    Throw (TypeError "Converting circular structure to JSON")
|}.

(** The clients of a list connecting one after the other. *)
Definition connect_all (sockets : list BaseSrv.Socket) (srv : BaseSrv.service) : BaseSrv.service :=
  fold_left (fun srv socket => BaseSrv._onClientConnect socket srv) sockets srv.

(* ===================================================================== *)
(** ** Properties of the command wrappers *)
(* ===================================================================== *)

Import BowerManager.

Create HintDb quiet.

Lemma quiet_ret {A} (a : A) : quiet (ret a).
Proof. intros st _; reflexivity. Qed.

Lemma quiet_lift {A} (c : completion A) : quiet (lift c).
Proof. intros st _; reflexivity. Qed.

Lemma quiet_bind {A B} (m : M A) (k : A -> M B) :
  quiet m -> (forall a, quiet (k a)) -> quiet (bind m k).
Proof.
  intros Hm Hk st Hst. unfold bind.
  specialize (Hm st Hst).
  destruct (m st) as [[a|e] st']; simpl in *; [|exact Hm].
  rewrite <- Hm. apply Hk. rewrite Hm. exact Hst.
Qed.

Lemma quiet_try_catch {A} (body : M A) (handler : value -> M A) :
  quiet body -> (forall e, quiet (handler e)) -> quiet (try_catch body handler).
Proof.
  intros Hm Hk st Hst. unfold try_catch.
  specialize (Hm st Hst).
  destruct (body st) as [[a|e] st']; simpl in *; [exact Hm|].
  rewrite <- Hm. apply Hk. rewrite Hm. exact Hst.
Qed.

Lemma quiet_write_log l a : quiet (write_log l a).
Proof. intros st _; reflexivity. Qed.

Lemma quiet_call_continueLog a : quiet (call_continueLog a).
Proof.
  intros st _. unfold call_continueLog.
  destruct (continueLog st) as [[]|]; reflexivity.
Qed.

Lemma quiet_if_continueLog a : quiet (if_continueLog a).
Proof.
  intros st Hst. unfold if_continueLog.
  destruct (continueLog st) eqn:E; [|reflexivity].
  now apply quiet_call_continueLog.
Qed.

Lemma quiet_clear_continueLog : quiet clear_continueLog.
Proof. intros st _; reflexivity. Qed.

Lemma quiet_defer_resolve v : quiet (defer_resolve v).
Proof. intros st Hst; simpl. destruct (defer st); [discriminate|reflexivity..]. Qed.

Lemma quiet_defer_reject v : quiet (defer_reject v).
Proof. intros st Hst; simpl. destruct (defer st); [discriminate|reflexivity..]. Qed.

#[local] Hint Resolve quiet_ret quiet_lift quiet_write_log quiet_call_continueLog
  quiet_if_continueLog quiet_clear_continueLog quiet_defer_resolve
  quiet_defer_reject : quiet.

Ltac quiet_steps :=
  repeat first
    [ apply quiet_bind; [|intros ?]
    | apply quiet_try_catch; [|intros ?]
    | match goal with
      | |- quiet (if ?b then _ else _) => destruct b
      | |- quiet (match ?x with _ => _ end) => destruct x
      end
    | solve [auto with quiet] ].

Lemma invoke_quiet (m : M unit) st :
  quiet m -> Q.settled (defer st) = true -> defer (invoke m st) = defer st.
Proof.
  intros Hm Hst. specialize (Hm st Hst). unfold invoke.
  destruct (m st) as [[a|e] st']; exact Hm.
Qed.

Lemma listeners_quiet (c : command_call) :
  (forall l, quiet (on_log (listeners_of c) l)) /\
  (forall e, quiet (on_error (listeners_of c) e)) /\
  (forall r, quiet (on_end (listeners_of c) r)).
Proof. destruct c; simpl; repeat split; intros; quiet_steps. Qed.

(** Once the promise of a call is settled, no event changes it. *)
Lemma deliver_settled c ev st :
  Q.settled (defer st) = true ->
  defer (deliver (listeners_of c) ev st) = defer st.
Proof.
  intros Hst. destruct (listeners_quiet c) as (Hl & He & Hr).
  destruct ev; simpl; apply invoke_quiet; auto.
Qed.

Lemma run_from_settled c evs st :
  Q.settled (defer st) = true ->
  defer (fold_left (fun st ev => deliver (listeners_of c) ev st) evs st) = defer st.
Proof.
  revert st. induction evs as [|ev evs IH]; intros st Hst; simpl; [reflexivity|].
  rewrite IH; rewrite deliver_settled; auto.
Qed.

(** Case analysis on whatever the goal still matches on, innermost first. *)
Ltac crunch :=
  repeat (simpl in *;
    unfold invoke, bind, lift, try_catch, ret, write_log, call_continueLog,
      if_continueLog, clear_continueLog, defer_resolve, defer_reject in *;
    simpl in *; simplify_eq;
    match goal with
    | |- context [match ?x with _ => _ end] =>
        lazymatch x with
        | context [match _ with _ => _ end] => fail
        | _ => destruct x eqn:?
        end
    end);
  simpl in *; simplify_eq; try congruence; auto.

Lemma initial_armed c : armed (initial (listeners_of c)) /\ defer (initial (listeners_of c)) = Q.Pending.
Proof. destruct c; split; try intros _; reflexivity. Qed.

Lemma deliver_armed c ev st :
  armed st -> armed (deliver (listeners_of c) ev st).
Proof.
  intros Hst. destruct (Q.settled (defer st)) eqn:Hs.
  - intros Hp. rewrite deliver_settled in Hp by assumption.
    rewrite Hp in Hs. discriminate.
  - destruct st as [d k lg u]. unfold armed in *. simpl in *.
    destruct d; try discriminate. rewrite (Hst eq_refl).
    destruct c, ev; unfold deliver; crunch.
Qed.

Lemma run_armed c evs st :
  armed st -> armed (fold_left (fun st ev => deliver (listeners_of c) ev st) evs st).
Proof.
  revert st. induction evs as [|ev evs IH]; intros st Hst; simpl; [assumption|].
  apply IH, deliver_armed, Hst.
Qed.

(** A terminal event settles the promise, if it was not settled yet. *)
Lemma terminal_settles c t st :
  armed st ->
  Q.settled (defer (deliver (listeners_of c) (of_terminal t) st)) = true.
Proof.
  intros Hst. destruct (Q.settled (defer st)) eqn:Hs.
  - rewrite deliver_settled; assumption.
  - destruct st as [d k lg u]. unfold armed in *. simpl in *.
    destruct d; try discriminate. rewrite (Hst eq_refl).
    destruct c, t; unfold deliver; crunch.
Qed.

Lemma changed_same p : Q.changed p p = 0%nat.
Proof. destruct p; simpl; try reflexivity; destruct (decide (_ = _)); congruence. Qed.

Lemma changed_settling p q :
  Q.settled p = false -> Q.settled q = true -> Q.changed p q = 1%nat.
Proof. destruct p, q; simpl; congruence. Qed.

Lemma states_cons op ev evs st :
  Q.transitions (states op (ev :: evs) st) =
  (Q.changed (defer st) (defer (deliver op ev st)) +
   Q.transitions (states op evs (deliver op ev st)))%nat.
Proof. simpl. destruct evs; reflexivity. Qed.

(** The promise of a call changes state as many times as it settles:
    never when it starts settled or stays pending, once otherwise. *)
Lemma transitions_states c evs st :
  Q.transitions (states (listeners_of c) evs st) =
  if Q.settled (defer st) then 0%nat
  else if Q.settled (defer (fold_left (fun st ev => deliver (listeners_of c) ev st) evs st))
       then 1%nat else 0%nat.
Proof.
  revert st. induction evs as [|ev evs IH]; intros st.
  - simpl. destruct (Q.settled (defer st)); reflexivity.
  - rewrite states_cons, IH. simpl fold_left.
    destruct (Q.settled (defer st)) eqn:Hs.
    + rewrite deliver_settled by assumption. rewrite Hs, changed_same. reflexivity.
    + destruct (Q.settled (defer (deliver (listeners_of c) ev st))) eqn:Hs'.
      * rewrite run_from_settled by assumption. rewrite Hs'.
        rewrite changed_settling by assumption. reflexivity.
      * destruct (defer st), (defer (deliver (listeners_of c) ev st)); try discriminate.
        reflexivity.
Qed.

Lemma run_app op evs more :
  run op (evs ++ more) = fold_left (fun st ev => deliver op ev st) more (run op evs).
Proof. unfold run. apply fold_left_app. Qed.

Lemma run_protocol op logs t :
  run op (protocol logs t) = deliver op (of_terminal t) (run op (map EvLog logs)).
Proof. unfold protocol. rewrite run_app. reflexivity. Qed.

Lemma commands_settle_once (c : command_call) (logs : list LogEvent) (t : terminal) :
  Q.transitions (history (listeners_of c) (protocol logs t)) = 1%nat /\
  Q.settled (defer (run (listeners_of c) (protocol logs t))) = true /\
  forall more,
    defer (run (listeners_of c) (protocol logs t ++ more)) =
    defer (run (listeners_of c) (protocol logs t)).
Proof.
  assert (Hs : Q.settled (defer (run (listeners_of c) (protocol logs t))) = true).
  { rewrite run_protocol. apply terminal_settles, run_armed, initial_armed. }
  repeat split.
  - unfold history. rewrite transitions_states.
    destruct (initial_armed c) as [_ ->]. simpl Q.settled.
    fold (run (listeners_of c) (protocol logs t)). rewrite Hs. reflexivity.
  - exact Hs.
  - intros more. rewrite run_app. apply run_from_settled, Hs.
Qed.

Section ConfigSettles.

Context (json : Json) (D : Type) (fs : Fs D).

Lemma setConfigFile_settles (config : value) (disk : D) :
  Q.settled (defer (fst (setConfigFile config disk))) = true.
Proof.
  unfold setConfigFile, setConfigFile_written, start.
  destruct (negb (typeof config =? "string")%string);
    [destruct (JSON_stringify config 2) as [text|e]|];
    try destruct (writeFile "bower.json" _ disk) as [[e|] disk'];
    crunch.
Qed.

Lemma getConfigFile_settles (disk : D) :
  Q.settled (defer (getConfigFile disk)) = true.
Proof.
  unfold getConfigFile, getConfigFile_read, start.
  destruct (readFile "bower.json" "utf8" disk) as [[e|] data]; crunch.
Qed.

End ConfigSettles.

(** C1. Every operation of the manager settles its promise exactly once.
    For the six operations that drive a Bower command and every run of
    the command (any progress notifications, then an error or an end) the
    promise changes state once over the run, is settled when the run is
    over, and keeps that outcome whatever is delivered afterwards: a later
    attempt to settle it is ignored.  For [setConfigFile] and
    [getConfigFile], whatever [JSON] and the file system do, the promise
    changes state once between its creation and the end of the file
    operation. *)
Theorem future_settles_exactly_once :
  (forall (c : command_call) (logs : list LogEvent) (t : terminal),
     Q.transitions (history (listeners_of c) (protocol logs t)) = 1%nat /\
     Q.settled (defer (run (listeners_of c) (protocol logs t))) = true /\
     forall more,
       defer (run (listeners_of c) (protocol logs t ++ more)) =
       defer (run (listeners_of c) (protocol logs t))) /\
  (forall (json : Json) (D : Type) (fs : Fs D) (config : value) (disk : D),
     Q.transitions (setConfigFile_history config disk) = 1%nat) /\
  (forall (json : Json) (D : Type) (fs : Fs D) (disk : D),
     Q.transitions (getConfigFile_history disk) = 1%nat).
Proof.
  split; [exact commands_settle_once|split].
  - intros json D fs config disk. unfold setConfigFile_history, Q.transitions.
    rewrite changed_settling; auto using setConfigFile_settles.
  - intros json D fs disk. unfold getConfigFile_history, Q.transitions.
    rewrite changed_settling; auto using getConfigFile_settles.
Qed.

(** *** [uninstall] of a package that is not installed *)

(** What the progress notifications of [uninstall] can leave behind. *)
Lemma uninstall_logs name options (logs : list LogEvent) :
  let st := run (uninstall name options) (map EvLog logs) in
  (defer st = Q.Pending /\ continueLog st = Some ContinueLog) \/
  defer st = Q.Fulfilled VNull.
Proof.
  induction logs as [|l logs IH] using rev_ind; [left; split; reflexivity|].
  rewrite map_app, run_app. simpl in *.
  destruct (run (uninstall name options) (map EvLog logs)) as [d k lg u].
  simpl in *. destruct IH as [[-> ->]| ->]; crunch.
Qed.

(** C2. When the command run by [uninstall] reports ["not-installed"] in
    a progress notification, the promise is fulfilled with [null],
    whatever was notified before and whatever is delivered afterwards
    (an end, an error, or nothing). *)
Theorem uninstall_not_installed_resolves_null
    (name : string) (options : value)
    (before : list LogEvent) (l : LogEvent) (after : list event) :
  id l = "not-installed" ->
  defer (run (uninstall name options) (map EvLog before ++ EvLog l :: after))
  = Q.Fulfilled VNull.
Proof.
  intros Hid. rewrite run_app. simpl fold_left.
  change (uninstall name options) with (listeners_of (CallUninstall name options)).
  assert (H : defer (deliver (listeners_of (CallUninstall name options)) (EvLog l)
                       (run (listeners_of (CallUninstall name options)) (map EvLog before)))
              = Q.Fulfilled VNull).
  { pose proof (uninstall_logs name options before) as Hb. simpl in *.
    destruct (run (uninstall name options) (map EvLog before)) as [d k lg u].
    simpl in *. rewrite Hid. destruct Hb as [[-> ->]| ->]; crunch. }
  rewrite run_from_settled; simpl in H |- *; rewrite H; reflexivity.
Qed.

Lemma uninstall_not_installed_resolves_null_witness :
  defer (run (uninstall "jquery" (VObj [("save", VBool true)]))
           (map EvLog [mkLog "resolve" "jquery" VUndefined]
            ++ EvLog (mkLog "not-installed" "jquery" VUndefined)
               :: [EvEnd (VObj [])]))
  = Q.Fulfilled VNull.
Proof.
  apply (uninstall_not_installed_resolves_null "jquery" (VObj [("save", VBool true)])
           [mkLog "resolve" "jquery" VUndefined]
           (mkLog "not-installed" "jquery" VUndefined)
           [EvEnd (VObj [])]).
  reflexivity.
Defined.

(** The second settlement of the claim's example: [uninstall] resolves on
    the notification, the end of the command resolves again, and the
    promise keeps the first outcome. *)
Example uninstall_end_after_not_installed :
  history (uninstall "jquery" VUndefined)
    [EvLog (mkLog "not-installed" "jquery" VUndefined); EvEnd (VObj [])]
  = [Q.Pending; Q.Fulfilled VNull; Q.Fulfilled VNull].
Proof. reflexivity. Qed.

(** *** [info] *)

Lemma silent_logs op (logs : list LogEvent) :
  (forall l st, deliver op (EvLog l) st = st) ->
  run op (map EvLog logs) = initial op.
Proof.
  intros Hsilent. induction logs as [|l logs IH] using rev_ind; [reflexivity|].
  rewrite map_app, run_app. simpl. rewrite IH. apply Hsilent.
Qed.

Lemma info_logs name (logs : list LogEvent) :
  run (info name) (map EvLog logs) = initial (info name).
Proof. apply silent_logs. intros l [d k lg u]. reflexivity. Qed.

(** C3. The outcome of [info(name)].  When the command fails with the
    lookup-miss code ["ENOTFOUND"], the promise is fulfilled with [null];
    when it fails with any other code, the promise is rejected with the
    error object of the event; when it ends, the promise is fulfilled with
    the result of the event. *)
Theorem info_outcome (name : string) (logs : list LogEvent) :
  (forall e, code e = "ENOTFOUND" ->
     defer (run (info name) (protocol logs (Fails e))) = Q.Fulfilled VNull) /\
  (forall e, code e <> "ENOTFOUND" ->
     defer (run (info name) (protocol logs (Fails e))) = Q.Rejected (of_error e)) /\
  (forall result,
     defer (run (info name) (protocol logs (Ends result))) = Q.Fulfilled result).
Proof.
  split; [|split].
  - intros e He. rewrite run_protocol, info_logs. simpl.
    unfold invoke, bind. rewrite He. reflexivity.
  - intros e He. rewrite run_protocol, info_logs. simpl.
    unfold invoke, bind. apply String.eqb_neq in He. rewrite He. reflexivity.
  - intros result. rewrite run_protocol, info_logs. reflexivity.
Qed.

Lemma info_outcome_witness :
  defer (run (info "no-such-package")
           (protocol [mkLog "not-cached" "x" VNull]
                     (Fails (mkError "ENOTFOUND" "Package no-such-package not found"))))
  = Q.Fulfilled VNull /\
  defer (run (info "jquery")
           (protocol [] (Fails (mkError "ECONFLICT" "Unable to find suitable version"))))
  = Q.Rejected (of_error (mkError "ECONFLICT" "Unable to find suitable version")).
Proof.
  split.
  - destruct (info_outcome "no-such-package" [mkLog "not-cached" "x" VNull])
      as (Hmiss & _ & _).
    apply Hmiss. reflexivity.
  - destruct (info_outcome "jquery" []) as (_ & Hother & _).
    apply Hother. simpl. discriminate.
Defined.

(** *** Progress notifications *)




(* ===================================================================== *)
(** ** The reference codec: parsing undoes serialising *)
(* ===================================================================== *)

Local Open Scope list_scope.

Section Codec.

Import Ecma.

(** Induction on values, through the lists they nest. *)
Lemma value_nested_ind (P : value -> Prop) :
  P VUndefined -> P VNull -> (forall b, P (VBool b)) -> (forall n, P (VNum n)) ->
  (forall s, P (VStr s)) ->
  (forall items, Forall P items -> P (VArr items)) ->
  (forall props, Forall (fun kv => P (snd kv)) props -> P (VObj props)) ->
  forall v, P v.
Proof.
  intros Hu Hn Hb Hz Hs Ha Ho. fix IH 1.
  intros [| |b|n|s|items|props];
    [exact Hu|exact Hn|apply Hb|apply Hz|apply Hs| |].
  - apply Ha. induction items as [|x items IHitems];
      constructor; [apply IH|exact IHitems].
  - apply Ho. induction props as [|[k x] props IHprops];
      constructor; [apply IH|exact IHprops].
Qed.

Lemma append_nil (b : string) : EmptyString +:+ b = b.
Proof. reflexivity. Qed.

Lemma append_cons (x : ascii) (a b : string) : String x a +:+ b = String x (a +:+ b).
Proof. reflexivity. Qed.

Lemma append_assoc (a b c : string) : (a +:+ b) +:+ c = a +:+ (b +:+ c).
Proof.
  induction a as [|x a IH]; [reflexivity|].
  rewrite !append_cons. f_equal. exact IH.
Qed.

Lemma length_append (a b : string) :
  String.length (a +:+ b) = (String.length a + String.length b)%nat.
Proof.
  induction a as [|x a IH]; [reflexivity|].
  rewrite append_cons. simpl. f_equal. exact IH.
Qed.

Lemma skip_ws_app (w x : string) :
  all_ws w = true -> skip_ws (w +:+ x) = skip_ws x.
Proof.
  induction w as [|c w IH]; [reflexivity|].
  rewrite append_cons. simpl.
  intros H. apply andb_prop in H as [Hc Hw]. rewrite Hc. auto.
Qed.

Lemma parse_value_ws (fuel : nat) (w x : string) :
  all_ws w = true -> parse_value fuel (w +:+ x) = parse_value fuel x.
Proof. intros H. destruct fuel; simpl; [reflexivity|]. now rewrite skip_ws_app. Qed.

Lemma all_ws_app (a b : string) :
  all_ws a = true -> all_ws b = true -> all_ws (a +:+ b) = true.
Proof.
  induction a as [|c a IH]; [auto|].
  rewrite append_cons. simpl.
  intros H Hb. apply andb_prop in H as [Hc Ha]. rewrite Hc. simpl. auto.
Qed.

(** *** Strings *)

Lemma string_body_char (c : ascii) (x : string) :
  string_body (quote_char c +:+ x) =
  match string_body x with
  | Some (body, r) => Some (String c body, r)
  | None => None
  end.
Proof.
  destruct c as [[] [] [] [] [] [] [] []]; reflexivity.
Qed.

Lemma string_body_quote (s rest : string) :
  string_body (quote_chars s +:+ String dquote rest) = Some (s, rest).
Proof.
  induction s as [|c s IH].
  - reflexivity.
  - simpl quote_chars. rewrite append_assoc, string_body_char, IH. reflexivity.
Qed.

(** *** Numbers *)

Lemma not_digit (c : ascii) : is_digit c = false -> digit_of_char c = None.
Proof.
  destruct c as [[] [] [] [] [] [] [] []]; intros H;
    solve [reflexivity | discriminate H].
Qed.

Lemma numeral_stops (rest : string) :
  ends_integer rest = true -> numeral rest = (Decimal.Nil, rest).
Proof.
  destruct rest as [|c rest]; [reflexivity|]. simpl. intros H.
  apply negb_true_iff, orb_false_iff in H as [H _].
  apply orb_false_iff in H as [H _]. apply orb_false_iff in H as [H _].
  now rewrite (not_digit c H).
Qed.

Lemma numeral_digit (c : ascii) (rest : string) (digit : Decimal.uint -> Decimal.uint) :
  digit_of_char c = Some digit ->
  numeral (String c rest) = (digit (fst (numeral rest)), snd (numeral rest)).
Proof. intros H. simpl. rewrite H. destruct (numeral rest); reflexivity. Qed.

Lemma numeral_print (d : Decimal.uint) (rest : string) :
  ends_integer rest = true ->
  numeral (NilEmpty.string_of_uint d +:+ rest) = (d, rest).
Proof.
  intros Hrest. induction d as [|d IH|d IH|d IH|d IH|d IH|d IH|d IH|d IH|d IH|d IH];
    simpl NilEmpty.string_of_uint;
    [rewrite append_nil; now apply numeral_stops|..];
    rewrite append_cons;
    erewrite numeral_digit by reflexivity; rewrite IH; reflexivity.
Qed.

Lemma nzhead_no_zero (d x : Decimal.uint) : Decimal.nzhead d <> Decimal.D0 x.
Proof. induction d; simpl; try discriminate; auto. Qed.

Lemma to_uint_no_leading_zero (p : positive) (x : Decimal.uint) :
  Pos.to_uint p <> Decimal.D0 x.
Proof.
  intros H.
  assert (Hn : Decimal.unorm (Pos.to_uint p) = Pos.to_uint p).
  { rewrite <- (Unsigned.to_of (Pos.to_uint p)), Unsigned.of_to. reflexivity. }
  rewrite H, unorm_D0 in Hn. unfold Decimal.unorm in Hn.
  destruct (Decimal.nzhead x) eqn:Hx;
    try (now apply (nzhead_no_zero x x)).
  - injection Hn as <-. apply (Unsigned.to_uint_nonzero p). exact H.
  - injection Hn as ->. exact (nzhead_no_zero _ _ Hx).
Qed.

Lemma unsigned_numeral (s rest : string) (d : Decimal.uint) :
  numeral s = (d, rest) -> ends_integer rest = true ->
  d <> Decimal.Nil -> (forall x, d <> Decimal.D0 x) ->
  unsigned s = Some (Z.of_uint d, rest).
Proof.
  intros Hs Hrest Hnil Hzero. unfold unsigned. rewrite Hs, Hrest. simpl.
  destruct d; try reflexivity; [congruence|exfalso; eapply Hzero; reflexivity].
Qed.

Lemma unsigned_print (n : Z) (rest : string) :
  0 <= n -> ends_integer rest = true ->
  unsigned (string_of_Z n +:+ rest) = Some (n, rest).
Proof.
  intros Hn Hrest. unfold string_of_Z.
  destruct n as [|p|p]; [| |lia].
  - unfold unsigned. simpl.
    rewrite append_nil, (numeral_stops rest Hrest), Hrest. reflexivity.
  - simpl Z.to_int. simpl NilZero.string_of_int.
    assert (Htext : NilZero.string_of_uint (Pos.to_uint p) =
                    NilEmpty.string_of_uint (Pos.to_uint p)).
    { pose proof (Unsigned.to_uint_nonnil p). now destruct (Pos.to_uint p). }
    rewrite Htext.
    rewrite (unsigned_numeral _ rest (Pos.to_uint p)).
    + unfold Z.of_uint. rewrite Unsigned.of_to. reflexivity.
    + now apply numeral_print.
    + exact Hrest.
    + apply Unsigned.to_uint_nonnil.
    + apply to_uint_no_leading_zero.
Qed.

(** The first character of a decimal numeral is a digit. *)
Lemma numeral_head (d : Decimal.uint) :
  d <> Decimal.Nil ->
  exists c tail, NilEmpty.string_of_uint d = String c tail /\ is_digit c = true.
Proof. destruct d; [congruence|..]; intros _; simpl; eauto. Qed.

Lemma parse_value_digit (fuel : nat) (c : ascii) (rest : string) :
  is_digit c = true ->
  parse_value (S fuel) (String c rest) =
  match unsigned (String c rest) with
  | Some (n, r) => Some (VNum n, r)
  | None => None
  end.
Proof.
  destruct c as [[] [] [] [] [] [] [] []]; intros H;
    solve [discriminate H | reflexivity].
Qed.

Lemma parse_value_number (fuel : nat) (n : Z) (rest : string) :
  ends_integer rest = true ->
  parse_value (S fuel) (string_of_Z n +:+ rest) = Some (VNum n, rest).
Proof.
  intros Hrest. destruct (Z.neg_nonneg_cases n) as [Hneg|Hpos].
  - destruct n as [|p|p]; try lia.
    pose proof (unsigned_print (Z.pos p) rest ltac:(lia) Hrest) as Hu.
    unfold string_of_Z in *. simpl Z.to_int in *. simpl NilZero.string_of_int in *.
    rewrite append_cons. simpl. rewrite Hu. reflexivity.
  - pose proof (unsigned_print n rest Hpos Hrest) as Hu.
    assert (Hhead : exists c tail, string_of_Z n = String c tail /\ is_digit c = true).
    { unfold string_of_Z. destruct n as [|p|p]; [simpl; eauto| |lia].
      simpl. unfold NilZero.string_of_uint.
      pose proof (Unsigned.to_uint_nonnil p) as Hnil.
      destruct (numeral_head _ Hnil) as (c & tail & Hc & Hd).
      exists c, tail. split; [|exact Hd].
      rewrite <- Hc. now destruct (Pos.to_uint p). }
    destruct Hhead as (c & tail & Hc & Hd). rewrite Hc in *.
    rewrite append_cons in *. rewrite parse_value_digit, Hu by exact Hd. reflexivity.
Qed.

(** *** Texts *)

Lemma digit_opens (c : ascii) (tail : string) :
  is_digit c = true -> opens_value (String c tail).
Proof.
  intros H. exists c, tail.
  destruct c as [[] [] [] [] [] [] [] []];
    solve [discriminate H | repeat split].
Qed.

Lemma text_opens (indent : string) (v : value) :
  v <> VUndefined -> opens_value (text gap indent v).
Proof.
  unfold text. destruct v as [| |[]|n|s|items|props]; intros Hv;
    try congruence; simpl.
  - do 2 eexists; repeat split.
  - do 2 eexists; repeat split.
  - do 2 eexists; repeat split.
  - unfold string_of_Z. destruct n as [|p|p]; simpl.
    + do 2 eexists; repeat split.
    + unfold NilZero.string_of_uint.
      destruct (numeral_head _ (Unsigned.to_uint_nonnil p)) as (c & tail & Hc & Hd).
      replace (match Pos.to_uint p with
               | Decimal.Nil => "0"
               | _ => NilEmpty.string_of_uint (Pos.to_uint p)
               end) with (String c tail)
        by (rewrite <- Hc; pose proof (Unsigned.to_uint_nonnil p);
            now destruct (Pos.to_uint p)).
      now apply digit_opens.
    + do 2 eexists; repeat split.
  - do 2 eexists; repeat split.
  - destruct (map _ items); do 2 eexists; repeat split.
  - destruct (omap _ props); do 2 eexists; repeat split.
Qed.

Lemma skip_ws_newline (x : string) : skip_ws (newline +:+ x) = skip_ws x.
Proof. reflexivity. Qed.

Lemma ends_integer_newline (x : string) : ends_integer (newline +:+ x) = true.
Proof. reflexivity. Qed.

Lemma ends_integer_comma (x : string) : ends_integer ("," +:+ x) = true.
Proof. reflexivity. Qed.

(** *** Arrays *)

Lemma elements_comma (pv : string -> option (value * string)) (f' : nat)
    (s r : string) (v : value) :
  pv s = Some (v, "," +:+ r) ->
  elements pv (S f') s =
  match elements pv f' r with
  | Some (vs, r') => Some (v :: vs, r')
  | None => None
  end.
Proof. intros H. simpl. rewrite H. reflexivity. Qed.

Lemma elements_close (pv : string -> option (value * string)) (f' : nat)
    (s r0 r : string) (v : value) :
  pv s = Some (v, r0) -> skip_ws r0 = "]" +:+ r ->
  elements pv (S f') s = Some ([v], r).
Proof. intros H Hr. simpl. rewrite H, Hr. reflexivity. Qed.

Lemma skip_ws_bracket (w r : string) :
  all_ws w = true -> skip_ws (newline +:+ w +:+ "]" +:+ r) = "]" +:+ r.
Proof. intros H. rewrite skip_ws_newline, skip_ws_app by assumption. reflexivity. Qed.

Lemma elements_items (items : list value) :
  Forall parses_back items ->
  forallb plain items = true ->
  items <> [] ->
  forall (f f' : nat) (w ind step rest : string),
    all_ws w = true -> all_ws ind = true -> all_ws step = true ->
    Forall (fun v => need v <= f)%nat items -> (length items <= f')%nat ->
    elements (parse_value f) f'
      (w +:+ join ("," +:+ newline +:+ ind) (map (text gap ind) items)
         +:+ newline +:+ step +:+ "]" +:+ rest)
    = Some (items, rest).
Proof.
  induction 1 as [|v items Hv Hitems IH]; [congruence|].
  intros Hplain _ f f' w ind step rest Hw Hind Hstep Hneed Hlen.
  simpl in Hplain. apply andb_prop in Hplain as [Hpv Hpitems].
  apply Forall_cons in Hneed as [Hnv Hnitems].
  destruct f' as [|f']; [simpl in Hlen; lia|].
  destruct items as [|v2 items].
  - change (join ("," +:+ newline +:+ ind) (map (text gap ind) [v]))
      with (text gap ind v).
    apply (elements_close _ _ _ (newline +:+ step +:+ "]" +:+ rest)).
    + rewrite parse_value_ws by assumption.
      apply Hv; auto using ends_integer_newline.
    + now apply skip_ws_bracket.
  - change (join ("," +:+ newline +:+ ind) (map (text gap ind) (v :: v2 :: items)))
      with (text gap ind v +:+ ("," +:+ newline +:+ ind) +:+
            join ("," +:+ newline +:+ ind) (map (text gap ind) (v2 :: items))).
    rewrite !append_assoc.
    erewrite elements_comma;
      [|rewrite parse_value_ws by assumption;
        apply Hv; auto using ends_integer_comma].
    rewrite <- (append_assoc newline ind).
    rewrite (IH Hpitems ltac:(congruence) f f' (newline +:+ ind) ind step rest);
      first [reflexivity | assumption
            | apply all_ws_app; [reflexivity|assumption]
            | simpl in Hlen |- *; lia].
Qed.

(** *** Objects *)

Lemma plain_defined (v : value) : plain v = true -> v <> VUndefined.
Proof. intros H ->. discriminate H. Qed.

Lemma serialize_text (indent : string) (v : value) :
  v <> VUndefined -> serialize gap indent v = Some (text gap indent v).
Proof. unfold text. destruct v as [| |[]| | | |]; intros H; [congruence|reflexivity..]. Qed.

Lemma omap_members (ind : string) (props : list (string * value)) :
  forallb (fun kv => plain (snd kv)) props = true ->
  omap (fun kv =>
          match serialize gap ind (snd kv) with
          | Some s => Some (quote (fst kv) +:+ ": " +:+ s)
          | None => None
          end) props
  = map (member ind) props.
Proof.
  induction props as [|kv props IH]; [reflexivity|].
  simpl forallb. intros H. apply andb_prop in H as [Hkv Hprops].
  cbn [omap list_omap map]. rewrite (serialize_text ind _ (plain_defined _ Hkv)).
  f_equal. apply IH, Hprops.
Qed.

Lemma distinct_NoDup (keys : list string) : distinct keys = true -> NoDup keys.
Proof.
  induction keys as [|k keys IH]; [constructor|].
  simpl. intros H. apply andb_prop in H as [Hk Hkeys].
  constructor; [|auto].
  intros Hin. apply negb_true_iff in Hk.
  assert (existsb (String.eqb k) keys = true); [|congruence].
  apply existsb_exists. exists k. split; [now apply list_elem_of_In|apply String.eqb_refl].
Qed.

Lemma set_prop_fresh (k : string) (v : value) (acc : list (string * value)) :
  k ∉ map fst acc -> set_prop k v acc = acc ++ [(k, v)].
Proof.
  induction acc as [|[k' v'] acc IH]; [reflexivity|].
  simpl. intros Hk. apply not_elem_of_cons in Hk as [Hne Hk].
  destruct (String.eqb_spec k k'); [congruence|]. now rewrite IH.
Qed.

Lemma members_step (pv : string -> option (value * string)) (f' : nat)
    (acc : list (string * value)) (w k body r3 : string) (v : value) :
  all_ws w = true ->
  pv (" " +:+ body) = Some (v, r3) ->
  members pv (S f') acc (w +:+ quote k +:+ ": " +:+ body) =
  match skip_ws r3 with
  | String c r4 =>
      if Ascii.eqb c "," then members pv f' (set_prop k v acc) r4
      else if Ascii.eqb c "}" then Some (set_prop k v acc, r4)
      else None
  | EmptyString => None
  end.
Proof.
  intros Hw Hpv. simpl members. rewrite skip_ws_app by assumption.
  unfold quote. rewrite append_cons, append_assoc, append_cons, append_nil.
  cbn [skip_ws]. change (is_ws dquote) with false. cbv iota.
  rewrite Ascii.eqb_refl. cbn [negb]. cbv iota.
  rewrite string_body_quote.
  change (skip_ws (": " +:+ body)) with (String ":" (" " +:+ body)).
  cbv iota. change (Ascii.eqb ":" ":") with true. cbn [negb]. cbv iota.
  rewrite Hpv. reflexivity.
Qed.

Lemma skip_ws_brace (w r : string) :
  all_ws w = true -> skip_ws (newline +:+ w +:+ "}" +:+ r) = "}" +:+ r.
Proof. intros H. rewrite skip_ws_newline, skip_ws_app by assumption. reflexivity. Qed.

Lemma members_props (props : list (string * value)) :
  Forall (fun kv => parses_back (snd kv)) props ->
  forallb (fun kv => plain (snd kv)) props = true ->
  props <> [] ->
  forall (f f' : nat) (acc : list (string * value)) (w ind step rest : string),
    NoDup (map fst (acc ++ props)) ->
    all_ws w = true -> all_ws ind = true -> all_ws step = true ->
    Forall (fun kv => need (snd kv) <= f)%nat props -> (length props <= f')%nat ->
    members (parse_value f) f' acc
      (w +:+ join ("," +:+ newline +:+ ind) (map (member ind) props)
         +:+ newline +:+ step +:+ "}" +:+ rest)
    = Some (acc ++ props, rest).
Proof.
  induction 1 as [|[k v] props Hv Hprops IH]; [congruence|].
  intros Hplain _ f f' acc w ind step rest Hnd Hw Hind Hstep Hneed Hlen.
  simpl in Hplain. apply andb_prop in Hplain as [Hpv Hpprops].
  apply Forall_cons in Hneed as [Hnv Hnprops]. simpl in Hv, Hnv.
  destruct f' as [|f']; [simpl in Hlen; lia|].
  assert (Hfresh : set_prop k v acc = acc ++ [(k, v)]).
  { apply set_prop_fresh. rewrite map_app in Hnd.
    apply NoDup_app in Hnd as (_ & Hdisj & _).
    intros Hin. apply (Hdisj k Hin). simpl. left. }
  destruct props as [|kv2 props].
  - change (join ("," +:+ newline +:+ ind) (map (member ind) [(k, v)]))
      with (quote k +:+ ": " +:+ text gap ind v).
    rewrite !append_assoc.
    erewrite members_step;
      [|assumption
       |rewrite parse_value_ws by reflexivity;
        apply Hv; auto using ends_integer_newline].
    rewrite skip_ws_brace by assumption.
    rewrite Hfresh. reflexivity.
  - change (join ("," +:+ newline +:+ ind) (map (member ind) ((k, v) :: kv2 :: props)))
      with ((quote k +:+ ": " +:+ text gap ind v) +:+ ("," +:+ newline +:+ ind) +:+
            join ("," +:+ newline +:+ ind) (map (member ind) (kv2 :: props))).
    rewrite !append_assoc.
    erewrite members_step;
      [|assumption
       |rewrite parse_value_ws by reflexivity;
        apply Hv; auto using ends_integer_comma].
    change (skip_ws ("," +:+ ?x)) with (String "," x).
    rewrite append_cons, append_nil. cbn [skip_ws].
    change (is_ws ",") with false. cbv iota.
    change (Ascii.eqb "," ",") with true. cbv iota.
    rewrite <- (append_assoc newline ind), Hfresh.
    replace (acc ++ (k, v) :: kv2 :: props)
      with ((acc ++ [(k, v)]) ++ kv2 :: props) by (now rewrite <- app_assoc).
    apply (IH Hpprops ltac:(congruence) f f' (acc ++ [(k, v)])
             (newline +:+ ind) ind step rest);
      first [now rewrite <- app_assoc | assumption
            | apply all_ws_app; [reflexivity|assumption]
            | simpl in Hlen |- *; lia].
Qed.

(** *** Values *)

Lemma parse_value_array (fuel : nat) (R r : string) (d : ascii) :
  skip_ws R = String d r -> Ascii.eqb d "]" = false ->
  parse_value (S fuel) ("[" +:+ R) =
  match elements (parse_value fuel) fuel R with
  | Some (vs, r') => Some (VArr vs, r')
  | None => None
  end.
Proof.
  intros HR Hd. rewrite append_cons, append_nil. simpl.
  rewrite HR, Hd. reflexivity.
Qed.

Lemma parse_value_object (fuel : nat) (R r : string) (d : ascii) :
  skip_ws R = String d r -> Ascii.eqb d "}" = false ->
  parse_value (S fuel) ("{" +:+ R) =
  match members (parse_value fuel) fuel [] R with
  | Some (props, r') => Some (VObj props, r')
  | None => None
  end.
Proof.
  intros HR Hd. rewrite append_cons, append_nil. simpl.
  rewrite HR, Hd. reflexivity.
Qed.

Lemma parse_value_string (fuel : nat) (s rest : string) :
  parse_value (S fuel) (quote s +:+ rest) = Some (VStr s, rest).
Proof.
  unfold quote. rewrite append_cons, append_assoc, append_cons, append_nil.
  simpl. rewrite string_body_quote. reflexivity.
Qed.

Lemma text_array (indent : string) (items : list value) :
  items <> [] ->
  text gap indent (VArr items) =
  "[" +:+ newline +:+ (indent +:+ gap) +:+
  join ("," +:+ newline +:+ (indent +:+ gap)) (map (text gap (indent +:+ gap)) items) +:+
  newline +:+ indent +:+ "]".
Proof. destruct items; [congruence|reflexivity]. Qed.

Lemma text_object (indent : string) (props : list (string * value)) :
  props <> [] ->
  forallb (fun kv => plain (snd kv)) props = true ->
  text gap indent (VObj props) =
  "{" +:+ newline +:+ (indent +:+ gap) +:+
  join ("," +:+ newline +:+ (indent +:+ gap)) (map (member (indent +:+ gap)) props) +:+
  newline +:+ indent +:+ "}".
Proof.
  intros Hne Hplain. unfold text. cbn [serialize default].
  change (is_empty gap) with false. cbv iota.
  rewrite omap_members by assumption.
  destruct props; [congruence|reflexivity].
Qed.

Lemma need_items {A} (size : A -> nat) (l : list A) (f : nat) :
  (list_sum (map (fun x => S (size x)) l) <= f)%nat ->
  Forall (fun x => size x <= f)%nat l /\ (length l <= f)%nat.
Proof.
  revert f. induction l as [|x l IH]; simpl; intros f Hf; [split; [constructor|lia]|].
  destruct (IH (f - S (size x))%nat ltac:(lia)) as [Hall Hlen].
  split; [|lia]. constructor; [lia|].
  eapply Forall_impl; [exact Hall|]. simpl. intros; lia.
Qed.

Lemma append_nil_r (s : string) : s +:+ EmptyString = s.
Proof.
  induction s as [|c s IH]; [reflexivity|].
  rewrite append_cons. f_equal. exact IH.
Qed.

Lemma join_cons (sep t : string) (ts : list string) :
  exists Z, join sep (t :: ts) = t +:+ Z.
Proof.
  destruct ts; [exists EmptyString; symmetry; apply append_nil_r|].
  eexists; reflexivity.
Qed.

Lemma all_ws_gap (indent : string) :
  all_ws indent = true -> all_ws (indent +:+ gap) = true.
Proof. intros H. now apply all_ws_app. Qed.

(** Parsing the text of a plain value gives the value back, and leaves
    what follows the text. *)
Lemma parse_value_text (v : value) : parses_back v.
Proof.
  induction v as [| |b|n|s|items IH|props IH] using value_nested_ind;
    intros Hplain indent rest fuel Hind Hrest Hfuel;
    (destruct fuel as [|f]; [simpl in Hfuel; lia|]).
  - discriminate Hplain.
  - reflexivity.
  - destruct b; reflexivity.
  - apply parse_value_number, Hrest.
  - apply parse_value_string.
  - simpl in Hplain, Hfuel.
    destruct (need_items need items f ltac:(lia)) as [Hneed Hlen].
    destruct items as [|v1 items]; [reflexivity|].
    rewrite text_array by congruence.
    pose proof (all_ws_gap indent Hind) as Hind'.
    set (ind := indent +:+ gap) in *. rewrite !append_assoc.
    destruct (text_opens ind v1) as (c & tail & Hc & Hws & Hb & _).
    { apply plain_defined. simpl in Hplain. now apply andb_prop in Hplain as [? _]. }
    match goal with
    | |- parse_value _ ("[" +:+ ?R) = _ =>
        assert (Hskip : exists r, skip_ws R = String c r)
    end.
    { rewrite skip_ws_newline, skip_ws_app by assumption.
      cbn [map join]. rewrite Hc.
      destruct (map (text gap ind) items);
        rewrite ?append_assoc, append_cons; cbn [skip_ws]; rewrite Hws;
        eexists; reflexivity. }
    destruct Hskip as [r Hskip].
    rewrite (parse_value_array f _ r c Hskip Hb).
    rewrite <- (append_assoc newline ind).
    rewrite (elements_items (v1 :: items) IH Hplain ltac:(congruence) f f
               (newline +:+ ind) ind indent rest);
      first [reflexivity | assumption
            | apply all_ws_app; [reflexivity|assumption] ].
  - simpl in Hplain, Hfuel. apply andb_prop in Hplain as [Hplain Hkeys].
    destruct (need_items (fun kv => need (snd kv)) props f ltac:(lia)) as [Hneed Hlen].
    destruct props as [|[k1 v1] props]; [reflexivity|].
    rewrite text_object by (congruence || assumption).
    pose proof (all_ws_gap indent Hind) as Hind'.
    set (ind := indent +:+ gap) in *. rewrite !append_assoc.
    match goal with
    | |- parse_value _ ("{" +:+ ?R) = _ =>
        assert (Hskip : exists r, skip_ws R = String dquote r)
    end.
    { rewrite skip_ws_newline, skip_ws_app by assumption.
      cbn [map].
      destruct (join_cons ("," +:+ newline +:+ ind) (member ind (k1, v1))
                  (map (member ind) props)) as [Z ->].
      unfold member, quote. cbn [fst].
      rewrite !append_assoc, append_cons. eexists; reflexivity. }
    destruct Hskip as [r Hskip].
    rewrite (parse_value_object f _ r dquote Hskip eq_refl).
    rewrite <- (append_assoc newline ind).
    rewrite (members_props ((k1, v1) :: props) IH Hplain ltac:(congruence) f f []
               (newline +:+ ind) ind indent rest);
      first [reflexivity | assumption
            | apply all_ws_app; [reflexivity|assumption]
            | now apply distinct_NoDup ].
Qed.

(** *** Fuel *)

Lemma join_bound {A} (size : A -> nat) (txt : A -> string) (sep : string) (l : list A) :
  Forall (fun x => size x <= String.length (txt x))%nat l ->
  (1 <= String.length sep)%nat ->
  (list_sum (map (fun x => S (size x)) l) <= S (String.length (join sep (map txt l))))%nat.
Proof.
  intros Hall Hsep. induction Hall as [|x l Hx Hl IH]; [simpl; lia|].
  destruct l as [|y l].
  - simpl. lia.
  - change (join sep (map txt (x :: y :: l)))
      with (txt x +:+ sep +:+ join sep (map txt (y :: l))).
    rewrite !length_append.
    change (list_sum (map (fun x => S (size x)) (x :: y :: l)))
      with (S (size x) + list_sum (map (fun x => S (size x)) (y :: l)))%nat.
    lia.
Qed.

Lemma text_nonempty (indent : string) (v : value) :
  v <> VUndefined -> (1 <= String.length (text gap indent v))%nat.
Proof.
  intros Hv. destruct (text_opens indent v Hv) as (c & tail & -> & _).
  simpl. lia.
Qed.

(** The text of a plain value is at least as long as the fuel its
    parsing needs. *)
Lemma need_le_length (v : value) :
  plain v = true -> forall indent, (need v <= String.length (text gap indent v))%nat.
Proof.
  induction v as [| |b|n|s|items IH|props IH] using value_nested_ind;
    intros Hplain indent;
    try discriminate Hplain;
    try (apply text_nonempty; congruence).
  - simpl in Hplain. destruct items as [|v1 items]; [simpl; lia|].
    rewrite text_array by congruence. rewrite !length_append.
    pose proof (join_bound need (text gap (indent +:+ gap))
                  ("," +:+ newline +:+ (indent +:+ gap)) (v1 :: items)) as Hj.
    cbn [need]. change (String.length newline) with 1%nat.
    change (String.length "]") with 1%nat.
    enough (list_sum (map (fun x => S (need x)) (v1 :: items)) <=
            S (String.length
                 (join ("," +:+ newline +:+ (indent +:+ gap))
                    (map (text gap (indent +:+ gap)) (v1 :: items)))))%nat by lia.
    apply Hj; [|rewrite append_cons; simpl; lia].
    apply Forall_forall. intros x Hx.
    rewrite Forall_forall in IH. apply IH; [exact Hx|].
    rewrite forallb_forall in Hplain. apply Hplain. now apply list_elem_of_In.
  - simpl in Hplain. apply andb_prop in Hplain as [Hplain _].
    destruct props as [|kv props]; [simpl; lia|].
    rewrite text_object by (congruence || assumption). rewrite !length_append.
    pose proof (join_bound (fun kv => need (snd kv)) (member (indent +:+ gap))
                  ("," +:+ newline +:+ (indent +:+ gap)) (kv :: props)) as Hj.
    cbn [need]. change (String.length newline) with 1%nat.
    change (String.length "}") with 1%nat.
    enough (list_sum (map (fun kv => S (need (snd kv))) (kv :: props)) <=
            S (String.length
                 (join ("," +:+ newline +:+ (indent +:+ gap))
                    (map (member (indent +:+ gap)) (kv :: props)))))%nat by lia.
    apply Hj; [|rewrite append_cons; simpl; lia].
    apply Forall_forall. intros x Hx.
    rewrite Forall_forall in IH. unfold member. rewrite !length_append.
    assert (need (snd x) <= String.length (text gap (indent +:+ gap) (snd x)))%nat; [|lia].
    apply IH; [exact Hx|].
    rewrite forallb_forall in Hplain. apply Hplain. now apply list_elem_of_In.
Qed.

(** [JSON.parse(JSON.stringify(v, null, 2))] is [v], for every plain [v]. *)
Lemma parse_stringify (v : value) :
  plain v = true ->
  stringify v 2 = Normal (VStr (text gap EmptyString v)) /\
  parse (text gap EmptyString v) = Normal v.
Proof.
  intros Hplain. split.
  - unfold stringify. change (spaces (Nat.min 10 2)) with gap.
    now rewrite (serialize_text EmptyString v (plain_defined v Hplain)).
  - unfold parse.
    pose proof (parse_value_text v Hplain EmptyString EmptyString
                  (S (String.length (text gap EmptyString v))) eq_refl eq_refl) as H.
    rewrite append_nil_r in H. rewrite H; [reflexivity|].
    pose proof (need_le_length v Hplain EmptyString). lia.
Qed.

End Codec.

(* ===================================================================== *)
(** ** Properties of the configuration file operations *)
(* ===================================================================== *)

Section ConfigFileFacts.

Context (json : Json) (D : Type) (fs : Fs D).

(** When the read succeeds and [JSON.parse] throws, the [catch] clause
    rejects with the error argument of the callback, which is [null]
    there, and then fails reading [message] from it. *)
Lemma getConfigFile_parse_failure (disk : D) (data exn : value) :
  readFile "bower.json" "utf8" disk = (None, data) ->
  JSON_parse (to_str data) = Throw exn ->
  defer (getConfigFile disk) = Q.Rejected VNull /\
  uncaught (getConfigFile disk) = [TypeError "Cannot read property 'message' of null"].
Proof.
  intros Hread Hparse. unfold getConfigFile. rewrite Hread.
  unfold getConfigFile_read, invoke, try_catch, bind, lift. rewrite Hparse.
  split; reflexivity.
Qed.

Lemma getConfigFile_missing (disk : D) (e : IError) (data : value) :
  readFile "bower.json" "utf8" disk = (Some e, data) ->
  code e = "ENOENT" ->
  defer (getConfigFile disk) = Q.Fulfilled VNull.
Proof.
  intros Hread He. unfold getConfigFile. rewrite Hread.
  unfold getConfigFile_read. rewrite He. reflexivity.
Qed.

Lemma getConfigFile_valid (disk : D) (data parsed : value) :
  readFile "bower.json" "utf8" disk = (None, data) ->
  JSON_parse (to_str data) = Normal parsed ->
  defer (getConfigFile disk) = Q.Fulfilled data.
Proof.
  intros Hread Hparse. unfold getConfigFile. rewrite Hread.
  unfold getConfigFile_read, invoke, try_catch, bind, lift. rewrite Hparse.
  reflexivity.
Qed.

Lemma getConfigFile_io_error (disk : D) (e : IError) (data : value) :
  readFile "bower.json" "utf8" disk = (Some e, data) ->
  code e <> "ENOENT" ->
  defer (getConfigFile disk) = Q.Rejected (of_error e).
Proof.
  intros Hread He. unfold getConfigFile. rewrite Hread.
  unfold getConfigFile_read. apply String.eqb_neq in He. rewrite He. reflexivity.
Qed.

(** What [setConfigFile] does with the text it hands to [fs.writeFile]. *)
Lemma setConfigFile_writes (config text : value) (disk disk' : D) (err : option IError) :
  (if negb (typeof config =? "string")%string
   then JSON_stringify config 2 else Normal config) = Normal text ->
  writeFile "bower.json" text disk = (err, disk') ->
  snd (setConfigFile config disk) = disk' /\
  defer (fst (setConfigFile config disk)) =
    match err with
    | None => Q.Fulfilled (VBool true)
    | Some e => Q.Rejected (of_error e)
    end.
Proof.
  intros Htext Hwrite. unfold setConfigFile. rewrite Htext, Hwrite.
  destruct err; split; reflexivity.
Qed.

End ConfigFileFacts.

(** C4, the code at a malformed file.  [setConfigFile] stores the text
    ["{not json"]; [JSON.parse] throws a SyntaxError on it, yet the promise
    of [getConfigFile] is rejected with [null], not with that error, and
    a TypeError escapes the callback. *)
Theorem getConfigFile_malformed_rejects_null :
  let disk := snd (setConfigFile (json := Ecma.json) (VStr "{not json") MemFs.empty) in
  readFile "bower.json" "utf8" disk = (None, VStr "{not json") /\
  JSON_parse (Json := Ecma.json) "{not json" = Throw (SyntaxError "Unexpected token in JSON") /\
  defer (getConfigFile (json := Ecma.json) disk) = Q.Rejected VNull /\
  uncaught (getConfigFile (json := Ecma.json) disk)
  = [TypeError "Cannot read property 'message' of null"].
Proof.
  assert (Hread : readFile "bower.json" "utf8"
                    (snd (setConfigFile (json := Ecma.json) (VStr "{not json") MemFs.empty))
                  = (None, VStr "{not json")) by (vm_compute; reflexivity).
  assert (Hparse : JSON_parse (Json := Ecma.json) (to_str (VStr "{not json"))
                   = Throw (SyntaxError "Unexpected token in JSON")) by reflexivity.
  split; [exact Hread|]. split; [exact Hparse|].
  exact (getConfigFile_parse_failure Ecma.json MemFs.disk MemFs.fs _ _ _ Hread Hparse).
Qed.

(** C5, the code at a file of valid JSON.  The file holds the text
    ["[1, 2]"], which [JSON.parse] turns into the array of 1 and 2.  The
    value parsed is assigned to [result] and never read: the promise of
    [getConfigFile] is fulfilled with [data], the text as read, and not
    with the parsed content. *)
Theorem getConfigFile_resolves_with_text :
  let disk := MemFs.mkDisk {[ "bower.json" := "[1, 2]" ]} false in
  readFile "bower.json" "utf8" disk = (None, VStr "[1, 2]") /\
  JSON_parse (Json := Ecma.json) "[1, 2]" = Normal (VArr [VNum 1; VNum 2]) /\
  defer (getConfigFile (json := Ecma.json) disk) = Q.Fulfilled (VStr "[1, 2]") /\
  defer (getConfigFile (json := Ecma.json) disk) <> Q.Fulfilled (VArr [VNum 1; VNum 2]).
Proof.
  assert (Hread : readFile "bower.json" "utf8"
                    (MemFs.mkDisk {[ "bower.json" := "[1, 2]" ]} false)
                  = (None, VStr "[1, 2]")) by (vm_compute; reflexivity).
  assert (Hparse : JSON_parse (Json := Ecma.json) (to_str (VStr "[1, 2]"))
                   = Normal (VArr [VNum 1; VNum 2])) by (vm_compute; reflexivity).
  assert (Hdefer := getConfigFile_valid Ecma.json MemFs.disk MemFs.fs _ _ _ Hread Hparse).
  split; [exact Hread|]. split; [exact Hparse|]. split; [exact Hdefer|].
  cbv zeta. rewrite Hdefer. discriminate.
Qed.

(** The three outcomes of [getConfigFile], for any runtime and file
    system.  It fulfils its promise with [null] when the read fails with
    code ["ENOENT"]; fulfils it with the text read, as read, when the read
    succeeds and the text parses as JSON; and rejects it with the error of
    the read for any other read failure. *)
Theorem getConfigFile_outcome (json : Json) (D : Type) (fs : Fs D) (disk : D) :
  (forall e data,
     readFile "bower.json" "utf8" disk = (Some e, data) ->
     code e = "ENOENT" ->
     defer (getConfigFile disk) = Q.Fulfilled VNull) /\
  (forall data parsed,
     readFile "bower.json" "utf8" disk = (None, data) ->
     JSON_parse (to_str data) = Normal parsed ->
     defer (getConfigFile disk) = Q.Fulfilled data) /\
  (forall e data,
     readFile "bower.json" "utf8" disk = (Some e, data) ->
     code e <> "ENOENT" ->
     defer (getConfigFile disk) = Q.Rejected (of_error e)).
Proof.
  split; [|split]; intros.
  - eapply getConfigFile_missing; eassumption.
  - eapply getConfigFile_valid; eassumption.
  - eapply getConfigFile_io_error; eassumption.
Qed.

Lemma getConfigFile_outcome_witness :
  defer (getConfigFile (json := Ecma.json) MemFs.empty) = Q.Fulfilled VNull /\
  defer (getConfigFile (json := Ecma.json)
           (MemFs.mkDisk {[ "bower.json" := "[1, 2]" ]} false))
  = Q.Fulfilled (VStr "[1, 2]").
Proof.
  split.
  - destruct (getConfigFile_outcome Ecma.json MemFs.disk MemFs.fs MemFs.empty)
      as (Hmissing & _ & _).
    apply (Hmissing (MemFs.ENOENT "bower.json") VUndefined); reflexivity.
  - destruct (getConfigFile_outcome Ecma.json MemFs.disk MemFs.fs
                (MemFs.mkDisk {[ "bower.json" := "[1, 2]" ]} false))
      as (_ & Hvalid & _).
    apply (Hvalid (VStr "[1, 2]") (VArr [VNum 1; VNum 2])); vm_compute; reflexivity.
Defined.

(** The round trip for any [JSON] and any file system: when the 2-space
    text of [c] parses back to [c], its write succeeds and the file system
    reads it back. *)
Lemma config_roundtrip_any (json : Json) (D : Type) (fs : Fs D)
    (c : value) (text : string) (disk disk' : D) :
  typeof c <> "string" ->
  JSON_stringify c 2 = Normal (VStr text) ->
  JSON_parse text = Normal c ->
  writeFile "bower.json" (VStr text) disk = (None, disk') ->
  readFile "bower.json" "utf8" disk' = (None, VStr text) ->
  defer (fst (setConfigFile c disk)) = Q.Fulfilled (VBool true) /\
  exists content,
    defer (getConfigFile (snd (setConfigFile c disk))) = Q.Fulfilled content /\
    JSON_parse (to_str content) = Normal c.
Proof.
  intros Htype Htext Hparse Hwrite Hread.
  apply String.eqb_neq in Htype.
  destruct (setConfigFile_writes json D fs c (VStr text) disk disk' None)
    as [Hdisk Hset]; [rewrite Htype; exact Htext|exact Hwrite|].
  split; [exact Hset|].
  exists (VStr text). rewrite Hdisk. split; [|exact Hparse].
  apply (getConfigFile_valid json D fs disk' (VStr text) c Hread Hparse).
Qed.

(** C6. Round trip through the configuration file.  Whatever [JSON] and
    the file system are: for a value [c] that is not a string and that
    [JSON] carries (its 2-space text parses back to [c]), when the write
    of that text succeeds and the file system then reads it back,
    [setConfigFile c] fulfils its promise and the promise of the following
    [getConfigFile] is fulfilled with a content whose parsed form is [c].
    On the reference runtime (the ECMA-262 codec, the in-memory file
    system, writable) this holds of every plain value that is not a
    string, [{name: "app"}] among them. *)
Theorem config_roundtrip :
  (forall (json : Json) (D : Type) (fs : Fs D)
          (c : value) (text : string) (disk disk' : D),
     typeof c <> "string" ->
     JSON_stringify c 2 = Normal (VStr text) ->
     JSON_parse text = Normal c ->
     writeFile "bower.json" (VStr text) disk = (None, disk') ->
     readFile "bower.json" "utf8" disk' = (None, VStr text) ->
     defer (fst (setConfigFile c disk)) = Q.Fulfilled (VBool true) /\
     exists content,
       defer (getConfigFile (snd (setConfigFile c disk))) = Q.Fulfilled content /\
       JSON_parse (to_str content) = Normal c) /\
  (forall (c : value) (disk : MemFs.disk),
     Ecma.plain c = true ->
     typeof c <> "string" ->
     MemFs.read_only disk = false ->
     defer (fst (setConfigFile (json := Ecma.json) c disk)) = Q.Fulfilled (VBool true) /\
     exists content,
       defer (getConfigFile (json := Ecma.json)
                (snd (setConfigFile (json := Ecma.json) c disk)))
       = Q.Fulfilled content /\
       JSON_parse (Json := Ecma.json) (to_str content) = Normal c).
Proof.
  split; [exact config_roundtrip_any|].
  intros c disk Hplain Htype Hrw.
  destruct (parse_stringify c Hplain) as [Htext Hparse].
  apply (config_roundtrip_any Ecma.json MemFs.disk MemFs.fs c
           (Ecma.text Ecma.gap EmptyString c) disk
           (MemFs.mkDisk (<["bower.json" := Ecma.text Ecma.gap EmptyString c]>
                            (MemFs.files disk)) (MemFs.read_only disk)));
    try assumption.
  - simpl. unfold MemFs.write. rewrite Hrw. reflexivity.
  - simpl. unfold MemFs.read. simpl. rewrite lookup_insert_eq. reflexivity.
Qed.

Lemma config_roundtrip_witness :
  (let c := VObj [("name", VStr "app")] in
   defer (fst (setConfigFile (json := Ecma.json) c MemFs.empty)) = Q.Fulfilled (VBool true) /\
   exists content,
     defer (getConfigFile (json := Ecma.json)
              (snd (setConfigFile (json := Ecma.json) c MemFs.empty)))
     = Q.Fulfilled content /\
     JSON_parse (Json := Ecma.json) (to_str content) = Normal c) /\
  (let c := VArr [VNum 1; VNull] in
   defer (fst (setConfigFile (json := Ecma.json) c MemFs.empty)) = Q.Fulfilled (VBool true) /\
   exists content,
     defer (getConfigFile (json := Ecma.json)
              (snd (setConfigFile (json := Ecma.json) c MemFs.empty)))
     = Q.Fulfilled content /\
     JSON_parse (Json := Ecma.json) (to_str content) = Normal c).
Proof.
  destruct config_roundtrip as [Hany Hreference]. split.
  - apply (Hreference (VObj [("name", VStr "app")]) MemFs.empty).
    + reflexivity.
    + simpl. discriminate.
    + reflexivity.
  - apply (Hany Ecma.json MemFs.disk MemFs.fs (VArr [VNum 1; VNull])
             (Ecma.text Ecma.gap EmptyString (VArr [VNum 1; VNull]))
             MemFs.empty
             (snd (MemFs.write "bower.json"
                     (VStr (Ecma.text Ecma.gap EmptyString (VArr [VNum 1; VNull])))
                     MemFs.empty))).
    + simpl. discriminate.
    + reflexivity.
    + vm_compute. reflexivity.
    + reflexivity.
    + vm_compute. reflexivity.
Defined.

(** C10. [setConfigFile] checks nothing about its input.  A string is
    handed to [fs.writeFile] as it is, whatever it holds and whatever
    [JSON] would make of it; any other value is handed over as
    [JSON.stringify(config, null, 2)] gives it.  The disk is as that write
    leaves it, and when the write succeeds the promise is fulfilled with
    [true]. *)
Theorem setConfigFile_writes_verbatim (json : Json) (D : Type) (fs : Fs D)
    (config : value) (disk : D) :
  (forall s disk',
     config = VStr s ->
     writeFile "bower.json" (VStr s) disk = (None, disk') ->
     snd (setConfigFile config disk) = disk' /\
     defer (fst (setConfigFile config disk)) = Q.Fulfilled (VBool true)) /\
  (forall text disk',
     typeof config <> "string" ->
     JSON_stringify config 2 = Normal text ->
     writeFile "bower.json" text disk = (None, disk') ->
     snd (setConfigFile config disk) = disk' /\
     defer (fst (setConfigFile config disk)) = Q.Fulfilled (VBool true)).
Proof.
  split.
  - intros s disk' -> Hwrite.
    apply (setConfigFile_writes json D fs (VStr s) (VStr s) disk disk' None);
      [reflexivity|exact Hwrite].
  - intros text disk' Htype Htext Hwrite.
    apply String.eqb_neq in Htype.
    apply (setConfigFile_writes json D fs config text disk disk' None);
      [rewrite Htype; exact Htext|exact Hwrite].
Qed.

Lemma setConfigFile_writes_verbatim_witness :
  (MemFs.files (snd (setConfigFile (json := Ecma.json) (VStr "{not json") MemFs.empty))
     !! "bower.json" = Some "{not json" /\
   defer (fst (setConfigFile (json := Ecma.json) (VStr "{not json") MemFs.empty))
   = Q.Fulfilled (VBool true)) /\
  (MemFs.files (snd (setConfigFile (json := Ecma.json) (VArr [VNum 1]) MemFs.empty))
     !! "bower.json" = Some ("[" +:+ Ecma.newline +:+ "  1" +:+ Ecma.newline +:+ "]") /\
   defer (fst (setConfigFile (json := Ecma.json) (VArr [VNum 1]) MemFs.empty))
   = Q.Fulfilled (VBool true)).
Proof.
  split.
  - destruct (setConfigFile_writes_verbatim Ecma.json MemFs.disk MemFs.fs
                (VStr "{not json") MemFs.empty) as (Hstring & _).
    destruct (Hstring "{not json"
                (snd (MemFs.write "bower.json" (VStr "{not json") MemFs.empty)))
      as (Hdisk & Hdefer); [reflexivity|reflexivity|].
    split; [rewrite Hdisk; vm_compute; reflexivity|exact Hdefer].
  - destruct (setConfigFile_writes_verbatim Ecma.json MemFs.disk MemFs.fs
                (VArr [VNum 1]) MemFs.empty) as (_ & Hother).
    destruct (Hother (VStr ("[" +:+ Ecma.newline +:+ "  1" +:+ Ecma.newline +:+ "]"))
                (snd (MemFs.write "bower.json"
                        (VStr ("[" +:+ Ecma.newline +:+ "  1" +:+ Ecma.newline +:+ "]"))
                        MemFs.empty)))
      as (Hdisk & Hdefer); [simpl; discriminate|reflexivity|reflexivity|].
    split; [rewrite Hdisk; vm_compute; reflexivity|exact Hdefer].
Defined.

(* ===================================================================== *)
(** ** Properties of the socket base service *)
(* ===================================================================== *)

Section Registry.

Import BaseSrv.

Lemma entries_app {V} (a b : EsMap.t V) :
  EsMap.entries (a ++ b) = (EsMap.entries a ++ EsMap.entries b)%list.
Proof. unfold EsMap.entries. apply omap_app. Qed.

Lemma delete_head {V} (k : string) (v : V) (rest : EsMap.t V) :
  EsMap.delete k (Some (k, v) :: rest) = None :: rest.
Proof. simpl. rewrite String.eqb_refl. reflexivity. Qed.

Lemma delete_skip {V} (k : string) (done m : EsMap.t V) :
  Forall (fun e => EsMap.has_key k e = false) done ->
  EsMap.delete k (done ++ m) = (done ++ EsMap.delete k m)%list.
Proof.
  induction 1 as [|e done He _ IH]; simpl; [reflexivity|].
  rewrite He, IH. reflexivity.
Qed.

Lemma fresh_key {V} (k : string) (v : V) (done todo : EsMap.t V) :
  NoDup (map fst (EsMap.entries (done ++ Some (k, v) :: todo))) ->
  Forall (fun e => EsMap.has_key k e = false) done.
Proof.
  intros Hnd. apply Forall_forall. intros [[k' v']|] Hin; [|reflexivity].
  simpl. apply String.eqb_neq. intros <-.
  rewrite entries_app, map_app in Hnd.
  apply NoDup_app in Hnd as (_ & Hdisj & _).
  apply (Hdisj k).
  - apply list_elem_of_fmap. exists (k, v'). split; [reflexivity|].
    unfold EsMap.entries. apply list_elem_of_omap. exists (Some (k, v')).
    split; [assumption|reflexivity].
  - simpl. left.
Qed.

Lemma for_of_values_done {V St} (read : St -> EsMap.t V) body fuel index st :
  read st !! index = None ->
  EsMap.for_of_values read body fuel index st = Some st.
Proof. intros H. destruct fuel; simpl; rewrite H; reflexivity. Qed.

Lemma for_of_values_step {V St} (read : St -> EsMap.t V) body fuel index st e :
  read st !! index = Some e ->
  EsMap.for_of_values read body (S fuel) index st =
  EsMap.for_of_values read body fuel (S index)
    (match e with
     | Some (_, v) => body v st
     | None => st
     end).
Proof. intros H. simpl. rewrite H. reflexivity. Qed.

Lemma keys_without {V} (e : option (string * V)) (done todo : EsMap.t V) :
  NoDup (map fst (EsMap.entries (done ++ e :: todo))) ->
  NoDup (map fst (EsMap.entries (done ++ None :: todo))).
Proof.
  destruct e as [kv|]; [|trivial].
  rewrite !entries_app, !map_app. simpl.
  rewrite !NoDup_app. intros (Hdone & Hdisj & Htodo).
  apply NoDup_cons in Htodo as [_ Htodo].
  repeat split; [assumption| |assumption].
  intros x Hx Hin. apply (Hdisj x Hx). now right.
Qed.

Lemma body_effect (s : Socket) (srv : service) (done todo : EsMap.t Socket) :
  connections srv = done ++ Some (id s, s) :: todo ->
  NoDup (map fst (EsMap.entries (done ++ Some (id s, s) :: todo))) ->
  connections (disconnectAll_body s srv) = done ++ after_disconnect (Some (id s, s)) :: todo /\
  disconnect_calls (disconnectAll_body s srv) = disconnect_calls srv ++ [(id s, true)] /\
  name (disconnectAll_body s srv) = name srv /\
  exists lines, log (disconnectAll_body s srv) = log srv ++ lines.
Proof.
  intros Hconn Hnd. unfold disconnectAll_body, disconnect, after_disconnect.
  destruct (answers_within s); simpl.
  - rewrite Hconn, delete_skip by (eapply fresh_key; eassumption).
    rewrite delete_head. repeat split; eauto.
    eexists. rewrite <- !app_assoc. reflexivity.
  - repeat split; eauto.
Qed.

(** The loop of [disconnectAll], from any point of the iteration: it runs
    to the end of the entries within the fuel, calls [disconnect(true)]
    on the socket of each entry left, and leaves in the registry the
    entries whose socket has not answered yet. *)
Lemma loop_spec (todo : EsMap.t Socket) :
  forall (done : EsMap.t Socket) (srv : service) (fuel : nat),
    connections srv = done ++ todo ->
    NoDup (map fst (EsMap.entries (done ++ todo))) ->
    Forall (fun kv => fst kv = id (snd kv)) (EsMap.entries todo) ->
    (length todo <= fuel)%nat ->
    exists srv',
      EsMap.for_of_values connections disconnectAll_body fuel (length done) srv = Some srv' /\
      connections srv' = done ++ map after_disconnect todo /\
      disconnect_calls srv' =
        disconnect_calls srv ++ map (fun kv => (id (snd kv), true)) (EsMap.entries todo) /\
      name srv' = name srv /\
      exists lines, log srv' = log srv ++ lines.
Proof.
  induction todo as [|e todo IH]; intros done srv fuel Hconn Hnd Hid Hfuel.
  - exists srv. split.
    + apply for_of_values_done. rewrite Hconn, app_nil_r.
      apply lookup_ge_None. lia.
    + simpl. rewrite !app_nil_r. rewrite app_nil_r in Hconn.
      repeat split; auto. exists (@nil entry). now rewrite app_nil_r.
  - destruct fuel as [|fuel]; [simpl in Hfuel; lia|].
    assert (Hlook : connections srv !! length done = Some e)
      by (rewrite Hconn; now apply list_lookup_middle).
    rewrite (for_of_values_step _ _ _ _ _ _ Hlook).
    destruct e as [[k s]|].
    + simpl in Hid. apply Forall_cons in Hid as [Hk Hid]. simpl in Hk. subst k.
      destruct (body_effect s srv done todo Hconn Hnd) as (Hc & Hd & Hn & lines & Hl).
      destruct (IH (done ++ [after_disconnect (Some (id s, s))]) (disconnectAll_body s srv) fuel)
        as (srv' & Hrun & Hc' & Hd' & Hn' & lines' & Hl').
      * rewrite Hc, <- app_assoc. reflexivity.
      * rewrite <- app_assoc. simpl. unfold after_disconnect.
        destruct (answers_within s); [eapply keys_without; eassumption|assumption].
      * assumption.
      * simpl in Hfuel. lia.
      * exists srv'. rewrite length_app, Nat.add_1_r in Hrun.
        split; [exact Hrun|]. rewrite Hc', Hd', Hn', Hl', Hd, Hn, Hl.
        rewrite <- !app_assoc. simpl. repeat split; eauto.
    + destruct (IH (done ++ [None]) srv fuel)
        as (srv' & Hrun & Hc' & Hd' & Hn' & lines' & Hl').
      * rewrite Hconn, <- app_assoc. reflexivity.
      * rewrite <- app_assoc. exact Hnd.
      * exact Hid.
      * simpl in Hfuel. lia.
      * exists srv'. rewrite length_app, Nat.add_1_r in Hrun.
        split; [exact Hrun|]. rewrite Hc', Hd', Hn', Hl'.
        rewrite <- !app_assoc. simpl. repeat split; eauto.
Qed.

Lemma size_clear {V} (m : EsMap.t V) : EsMap.size (EsMap.clear m) = 0%nat.
Proof. unfold EsMap.size, EsMap.entries, EsMap.clear. induction m; simpl; auto. Qed.

Lemma size_after_disconnect (m : EsMap.t Socket) :
  EsMap.size (map after_disconnect m) =
  length (List.filter (fun kv => negb (answers_within (snd kv))) (EsMap.entries m)).
Proof.
  unfold EsMap.size, EsMap.entries.
  induction m as [|[[k s]|] m IH]; simpl; [reflexivity| |exact IH].
  destruct (answers_within s); simpl; [exact IH|].
  f_equal. exact IH.
Qed.

Lemma set_keys {V} (k : string) (v : V) (m : EsMap.t V) :
  map fst (EsMap.entries (EsMap.set k v m)) =
  if existsb (EsMap.has_key k) m
  then map fst (EsMap.entries m)
  else map fst (EsMap.entries m) ++ [k].
Proof.
  induction m as [|[[k' v']|] m IH]; simpl; [reflexivity| |].
  - destruct (String.eqb_spec k k') as [->|Hne]; simpl; [reflexivity|].
    change (map fst (EsMap.entries (EsMap.set k v m)) =
            if existsb (EsMap.has_key k) m
            then map fst (EsMap.entries m)
            else map fst (EsMap.entries m) ++ [k]) in IH.
    change (k' :: map fst (EsMap.entries (EsMap.set k v m)) =
            if existsb (EsMap.has_key k) m
            then k' :: map fst (EsMap.entries m)
            else k' :: map fst (EsMap.entries m) ++ [k]).
    rewrite IH. destruct (existsb _ m); reflexivity.
  - exact IH.
Qed.

Lemma absent_key {V} (k : string) (m : EsMap.t V) :
  existsb (EsMap.has_key k) m = false -> ~ In k (map fst (EsMap.entries m)).
Proof.
  induction m as [|[[k' v']|] m IH]; simpl; [tauto| |exact IH].
  destruct (String.eqb_spec k k') as [->|Hne]; simpl; [discriminate|].
  intros Hm [Heq|Hin]; [congruence|]. exact (IH Hm Hin).
Qed.

Lemma set_entries_Forall {V} (P : string * V -> Prop) (k : string) (v : V) (m : EsMap.t V) :
  P (k, v) -> Forall P (EsMap.entries m) -> Forall P (EsMap.entries (EsMap.set k v m)).
Proof.
  intros Hkv. induction m as [|[[k' v']|] m IH]; simpl; intros Hm.
  - repeat constructor. exact Hkv.
  - apply Forall_cons in Hm as [Hhd Htl].
    destruct (String.eqb k k'); simpl; apply Forall_cons; split; auto.
  - apply IH, Hm.
Qed.

(** A client that connects leaves the registry well formed, with one
    entry more when its id was not registered. *)
Lemma onClientConnect_ok (socket : Socket) (srv : service) :
  registry_ok (connections srv) ->
  registry_ok (connections (_onClientConnect socket srv)) /\
  (existsb (EsMap.has_key (id socket)) (connections srv) = false ->
   EsMap.size (connections (_onClientConnect socket srv)) =
   S (EsMap.size (connections srv))).
Proof.
  intros [Hnd Hid]. simpl. split; [split|].
  - rewrite set_keys. destruct (existsb _ _) eqn:Hex; [exact Hnd|].
    apply NoDup_app. repeat split.
    + exact Hnd.
    + intros x Hx Hk. apply list_elem_of_In in Hx. apply list_elem_of_In in Hk.
      destruct Hk as [<-|[]]. exact (absent_key _ _ Hex Hx).
    + apply NoDup_singleton.
  - apply set_entries_Forall; [reflexivity|exact Hid].
  - intros Hex. unfold EsMap.size.
    rewrite <- (length_map fst), set_keys, Hex, length_app, length_map. simpl. lia.
Qed.

(** [disconnectAll] on any well-formed registry: the loop ends, every
    registered socket gets one [disconnect(true)], in the order of the
    registry, the registry is empty afterwards, and the last line logged
    gives the number of sockets that had not answered by then. *)
Lemma disconnectAll_spec (srv : service) :
  registry_ok (connections srv) ->
  exists srv',
    disconnectAll srv = Some srv' /\
    disconnect_calls srv' =
      disconnect_calls srv ++
      map (fun kv => (id (snd kv), true)) (EsMap.entries (connections srv)) /\
    EsMap.size (connections srv') = 0%nat /\
    exists lines,
      log srv' =
        log srv ++ lines ++
        [summary (name srv)
           (length (List.filter (fun kv => negb (answers_within (snd kv)))
                      (EsMap.entries (connections srv))))].
Proof.
  intros [Hnd Hid]. unfold disconnectAll.
  destruct (loop_spec (connections srv) []
              (write_log LTrace "Disconecting all..." srv)
              (length (connections srv)))
    as (srv' & Hrun & Hc & Hd & Hn & lines & Hl); auto.
  simpl in Hrun, Hc, Hd, Hn, Hl. simpl. rewrite Hrun.
  eexists. split; [reflexivity|]. simpl. repeat split.
  - exact Hd.
  - apply size_clear.
  - exists (Entry LTrace [VStr (name srv); VStr "Disconecting all..."] :: lines).
    rewrite Hl, Hn. unfold connection_count, summary. rewrite Hc, size_after_disconnect.
    rewrite <- !app_assoc. reflexivity.
Qed.

End Registry.

(** C7, the code on a socket that emits ["disconnect"] before
    [disconnect(true)] returns.  One client is connected.  [disconnectAll]
    disconnects it and leaves the registry empty, but the listener attached
    by [_onClientConnect] has removed the entry before the summary is
    written, and the line reads ["Disconected 0"]. *)
Theorem disconnectAll_summary_after_removal :
  let srv := BaseSrv._onClientConnect (BaseSrv.mkSocket "a" false true) (BaseSrv.create "srv" None) in
  EsMap.size (BaseSrv.connections srv) = 1%nat /\
  exists srv',
    BaseSrv.disconnectAll srv = Some srv' /\
    BaseSrv.disconnect_calls srv' = [("a", true)] /\
    EsMap.size (BaseSrv.connections srv') = 0%nat /\
    last (BaseSrv.log srv') = Some (BaseSrv.summary "srv" 0) /\
    BaseSrv.summary "srv" 0 = Entry LInfo [VStr "srv"; VStr "Disconected 0"].
Proof.
  split; [vm_compute; reflexivity|].
  eexists. split; [vm_compute; reflexivity|].
  vm_compute. repeat split.
Qed.

(** With sockets that leave the notification to a later turn, the
    summary counts the connections: three clients, ["Disconected 3"]. *)
Example disconnectAll_three_clients :
  let srv :=
    BaseSrv._onClientConnect (BaseSrv.mkSocket "c" false false)
      (BaseSrv._onClientConnect (BaseSrv.mkSocket "b" false false)
         (BaseSrv._onClientConnect (BaseSrv.mkSocket "a" false false)
            (BaseSrv.create "srv" None))) in
  EsMap.size (BaseSrv.connections srv) = 3%nat /\
  exists srv',
    BaseSrv.disconnectAll srv = Some srv' /\
    BaseSrv.disconnect_calls srv' = [("a", true); ("b", true); ("c", true)] /\
    EsMap.size (BaseSrv.connections srv') = 0%nat /\
    last (BaseSrv.log srv') = Some (BaseSrv.summary "srv" 3).
Proof.
  split; [vm_compute; reflexivity|].
  eexists. split; [vm_compute; reflexivity|].
  vm_compute. repeat split.
Qed.

(* ===================================================================== *)
(** ** Properties of the error-code table *)
(* ===================================================================== *)

(** C9 does not hold of the table: it has no entry named [unknown] and
    none named [entityTooLarge]. *)
Lemma ERROR_CODES_misses_names :
  ~ (forall name,
       In name ["invalid"; "resourceNotFound"; "unknown"; "badRequest";
                "notAuthorized"; "notFound"; "timeout"; "entityTooLarge";
                "methodNotAllowed"; "tooManyRequests"; "error"; "notAvailable"]
       <-> In name (map fst RestBaseSrv.ERROR_CODES)).
Proof.
  intros H. destruct (H "unknown") as [Hin _].
  assert (Hc : In "unknown" (map fst RestBaseSrv.ERROR_CODES))
    by (apply Hin; simpl; tauto).
  simpl in Hc. intuition discriminate.
Qed.

(** C9, as the code has it.  The names of the table are exactly
    [invalid], [resourceNotFound], [unknow], [badRequest], [notAuthorized],
    [notFound], [timeout], [entityToLarge], [methodNotAllowed],
    [tooManyRequests], [error] and [notAvailable], each one once, and each
    is mapped to a number: 0, 10, 20, 400, 401, 404, 408, 413, 415, 429,
    500 and 503. *)
Theorem ERROR_CODES_names :
  map fst RestBaseSrv.ERROR_CODES =
    ["invalid"; "resourceNotFound"; "unknow"; "badRequest"; "notAuthorized";
     "notFound"; "timeout"; "entityToLarge"; "methodNotAllowed";
     "tooManyRequests"; "error"; "notAvailable"] /\
  NoDup (map fst RestBaseSrv.ERROR_CODES) /\
  map (fun name => RestBaseSrv.lookup_code name RestBaseSrv.ERROR_CODES)
      (map fst RestBaseSrv.ERROR_CODES) =
    map Some [0; 10; 20; 400; 401; 404; 408; 413; 415; 429; 500; 503] /\
  (forall name,
     RestBaseSrv.lookup_code name RestBaseSrv.ERROR_CODES = None <->
     ~ In name (map fst RestBaseSrv.ERROR_CODES)).
Proof.
  split; [reflexivity|]. split; [|split; [reflexivity|]].
  - apply NoDup_ListNoDup. repeat constructor; simpl; intuition discriminate.
  - intros name. simpl.
    repeat match goal with
           | |- context [String.eqb name ?k] =>
               destruct (String.eqb_spec name k) as [->|?]
           end;
      split; intros; try discriminate; intuition congruence.
Qed.

(* ===================================================================== *)
(** ** Further properties of the command wrappers *)
(* ===================================================================== *)

(** Progress notifications leave an ordinary run pending, with the
    logger's continuation still in hand and no ok marker written. *)
Lemma ordinary_logs (c : command_call) (logs : list LogEvent) :
  ordinary c logs ->
  let st := run (listeners_of c) (map EvLog logs) in
  defer st = Q.Pending /\ continueLog st = Some ContinueLog /\
  lines_at LContinue (logged st) = [].
Proof.
  induction logs as [|l logs IH] using rev_ind; intros Hord.
  - destruct c; repeat split.
  - assert (Hlogs : ordinary c logs).
    { destruct c; simpl in *; auto. now apply Forall_app in Hord as [? _]. }
    assert (Hl : forall name options, c = CallUninstall name options ->
                                      String.eqb (id l) "not-installed" = false).
    { intros name options ->. simpl in Hord.
      apply Forall_app in Hord as [_ Hl]. apply Forall_cons in Hl as [Hl _].
      now apply String.eqb_neq. }
    specialize (IH Hlogs). rewrite map_app, run_app. simpl in *.
    destruct (run (listeners_of c) (map EvLog logs)) as [d k lg u].
    simpl in *. destruct IH as (-> & -> & Hlg).
    destruct c; unfold deliver, lines_at in *; crunch;
      try (specialize (Hl _ _ eq_refl); discriminate Hl);
      rewrite ?List.filter_app, ?Hlg; repeat split.
Qed.

(** X1. A command that fails rejects the promise with the error object it
    emitted, unchanged: for each of the six operations, in an ordinary
    run, and, for [info], with a code other than ["ENOTFOUND"]. *)
Theorem failure_rejects_with_error (c : command_call) (logs : list LogEvent) (e : IError) :
  ordinary c logs ->
  (forall name, c = CallInfo name -> code e <> "ENOTFOUND") ->
  defer (run (listeners_of c) (protocol logs (Fails e))) = Q.Rejected (of_error e).
Proof.
  intros Hord Hinfo. rewrite run_protocol.
  destruct (ordinary_logs c logs Hord) as (Hd & Hk & _). simpl in *.
  destruct (run (listeners_of c) (map EvLog logs)) as [d k lg u].
  simpl in *. subst d k.
  destruct c; try reflexivity.
  specialize (Hinfo name eq_refl). apply String.eqb_neq in Hinfo.
  simpl. unfold invoke, bind. rewrite Hinfo. reflexivity.
Qed.

Lemma failure_rejects_with_error_witness :
  defer (run (listeners_of (CallUninstall "jquery" VUndefined))
           (protocol [mkLog "uninstall" "jquery" VNull]
                     (Fails (mkError "ENOENT" "bower.json not found"))))
  = Q.Rejected (of_error (mkError "ENOENT" "bower.json not found")).
Proof.
  apply (failure_rejects_with_error (CallUninstall "jquery" VUndefined)
           [mkLog "uninstall" "jquery" VNull]
           (mkError "ENOENT" "bower.json not found")).
  - simpl. repeat constructor. discriminate.
  - intros name H. discriminate H.
Defined.

(** X2. A command that ends fulfils the promise with the result it
    emitted, unchanged, for each of the six operations, in an ordinary
    run. *)
Theorem end_resolves_with_result (c : command_call) (logs : list LogEvent) (result : value) :
  ordinary c logs ->
  defer (run (listeners_of c) (protocol logs (Ends result))) = Q.Fulfilled result.
Proof.
  intros Hord. rewrite run_protocol.
  destruct (ordinary_logs c logs Hord) as (Hd & Hk & _). simpl in *.
  destruct (run (listeners_of c) (map EvLog logs)) as [d k lg u].
  simpl in *. subst d k. destruct c; reflexivity.
Qed.

Lemma end_resolves_with_result_witness :
  defer (run (listeners_of (CallSearch "jq"))
           (protocol [mkLog "search" "jq" VNull]
                     (Ends (VArr [VObj [("name", VStr "jquery")]]))))
  = Q.Fulfilled (VArr [VObj [("name", VStr "jquery")]]).
Proof.
  apply (end_resolves_with_result (CallSearch "jq") [mkLog "search" "jq" VNull]
           (VArr [VObj [("name", VStr "jquery")]])).
  exact I.
Defined.

(** No event removes a line from the log of a call. *)
Lemma deliver_log_grows (c : command_call) (ev : event) (st : call) :
  exists more, logged (deliver (listeners_of c) ev st) = logged st ++ more.
Proof.
  destruct st as [d k lg u]. destruct c, ev; unfold deliver; crunch;
    repeat rewrite <- app_assoc;
    first [eexists; reflexivity | exists (@nil entry); now rewrite app_nil_r].
Qed.

(** An event that rejects the promise writes an error line. *)
Lemma deliver_rejecting (c : command_call) (ev : event) (st : call) (r : value) :
  defer (deliver (listeners_of c) ev st) = Q.Rejected r ->
  defer st = Q.Rejected r \/
  Exists (fun line => lvl line = LError) (logged (deliver (listeners_of c) ev st)).
Proof.
  destruct (Q.settled (defer st)) eqn:Hs.
  - rewrite deliver_settled by assumption. auto.
  - destruct st as [d k lg u]. simpl in Hs. destruct d; try discriminate.
    destruct c, ev; unfold deliver; crunch; intros H; try discriminate H;
      right; apply Exists_app; right; constructor; reflexivity.
Qed.

(** X3. Whatever a command emits, in whatever order, a promise that ends
    up rejected has an error-level line in the log of its call: no
    operation rejects silently. *)
Theorem rejection_is_logged (c : command_call) (evs : list event) (r : value) :
  defer (run (listeners_of c) evs) = Q.Rejected r ->
  Exists (fun line => lvl line = LError) (logged (run (listeners_of c) evs)).
Proof.
  revert r. induction evs as [|ev evs IH] using rev_ind; intros r Hr.
  - destruct c; discriminate Hr.
  - rewrite run_app in *. simpl in *.
    destruct (deliver_rejecting c ev _ r Hr) as [Hold|Hnew]; [|exact Hnew].
    destruct (deliver_log_grows c ev (run (listeners_of c) evs)) as [more ->].
    apply Exists_app. left. eapply IH, Hold.
Qed.

Lemma rejection_is_logged_witness :
  Exists (fun line => lvl line = LError)
    (logged (run (listeners_of (CallInstall "jquery" VUndefined))
               [EvError (mkError "ECONFLICT" "no suitable version"); EvEnd VNull])).
Proof.
  apply (rejection_is_logged (CallInstall "jquery" VUndefined)
           [EvError (mkError "ECONFLICT" "no suitable version"); EvEnd VNull]
           (of_error (mkError "ECONFLICT" "no suitable version"))).
  reflexivity.
Defined.

(** What progress notifications can leave behind, for any operation:
    the call as it started, or, after ["not-installed"], the promise
    fulfilled with [null], [continueLog] cleared and one ok marker. *)
Lemma logs_outcome (c : command_call) (logs : list LogEvent) :
  let st := run (listeners_of c) (map EvLog logs) in
  (defer st = Q.Pending /\ continueLog st = Some ContinueLog /\
   lines_at LContinue (logged st) = []) \/
  (defer st = Q.Fulfilled VNull /\ continueLog st = None /\
   length (lines_at LContinue (logged st)) = 1%nat).
Proof.
  induction logs as [|l logs IH] using rev_ind.
  - left. destruct c; repeat split.
  - rewrite map_app, run_app. simpl in *.
    destruct (run (listeners_of c) (map EvLog logs)) as [d k lg u].
    simpl in *. unfold lines_at in *.
    destruct IH as [(-> & -> & Hlg)|(-> & -> & Hlg)];
      destruct c; unfold deliver; crunch;
      rewrite ?List.filter_app, ?length_app, ?Hlg; simpl;
      solve [left; repeat split | right; repeat split; lia].
Qed.

(** X4. Over a run of a command, the ok marker (the continuation of the
    line the call opened) is written exactly once when the promise ends
    up fulfilled and never when it ends up rejected; in particular
    [uninstall] does not write it a second time when the command ends
    after ["not-installed"]. *)
Theorem ok_marker_once (c : command_call) (logs : list LogEvent) (t : terminal) :
  length (lines_at LContinue (logged (run (listeners_of c) (protocol logs t)))) =
  match defer (run (listeners_of c) (protocol logs t)) with
  | Q.Fulfilled _ => 1%nat
  | _ => 0%nat
  end.
Proof.
  rewrite run_protocol. pose proof (logs_outcome c logs) as H. simpl in H.
  destruct (run (listeners_of c) (map EvLog logs)) as [d k lg u].
  simpl in *. unfold lines_at in *.
  destruct H as [(-> & -> & Hlg)|(-> & -> & Hlg)];
    destruct c, t; unfold deliver; crunch;
    rewrite ?List.filter_app, ?length_app, ?Hlg; simpl; lia.
Qed.

(** X5. A second ["not-installed"] notification makes the listener of
    [uninstall] throw: [continueLog] is [null] by then, so the call of it
    raises a TypeError, and nothing else of the call changes. *)
Theorem uninstall_repeated_not_installed
    (name : string) (options : value) (before : list LogEvent) (l1 l2 : LogEvent) :
  id l1 = "not-installed" -> id l2 = "not-installed" ->
  let st := run (uninstall name options) (map EvLog (before ++ [l1])) in
  run (uninstall name options) (map EvLog (before ++ [l1; l2])) =
  mkCall (defer st) (continueLog st) (logged st)
         (uncaught st ++ [TypeError "continueLog is not a function"]).
Proof.
  intros H1 H2.
  replace (before ++ [l1; l2]) with ((before ++ [l1]) ++ [l2])
    by (now rewrite <- app_assoc).
  rewrite (map_app _ (before ++ [l1])), run_app. simpl fold_left.
  assert (Hk : continueLog (run (uninstall name options) (map EvLog (before ++ [l1]))) = None).
  { rewrite map_app, run_app.
    pose proof (logs_outcome (CallUninstall name options) before) as H. simpl in H |- *.
    destruct (run (uninstall name options) (map EvLog before)) as [d k lg u].
    simpl in *. rewrite H1.
    destruct H as [(-> & -> & _)|(-> & -> & _)]; reflexivity. }
  destruct (run (uninstall name options) (map EvLog (before ++ [l1]))) as [d k lg u].
  simpl in *. subst k. rewrite H2. reflexivity.
Qed.

Lemma uninstall_repeated_not_installed_witness :
  uncaught (run (uninstall "jquery" VUndefined)
              (map EvLog ([] ++ [mkLog "not-installed" "jquery" VNull;
                                 mkLog "not-installed" "jquery" VNull])))
  = [TypeError "continueLog is not a function"].
Proof.
  rewrite (uninstall_repeated_not_installed "jquery" VUndefined []
             (mkLog "not-installed" "jquery" VNull)
             (mkLog "not-installed" "jquery" VNull)); reflexivity.
Defined.

(** X6. A ["cached"] notification of [installAll] whose data has no
    resolver to read (no data, or data without a [resolver] object) makes
    the listener throw after its first trace line: the notification never
    reaches the file logger, and the promise is left as it was. *)
Theorem installAll_cached_without_resolver (options : value) (l : LogEvent) (st : call) :
  id l = "cached" ->
  (forall r, get_prop (data l) "resolver" = Normal r -> r = VUndefined \/ r = VNull) ->
  exists exn,
    deliver (installAll options) (EvLog l) st =
    mkCall (defer st) (continueLog st)
           (logged st ++
              [Entry LTrace [VStr "BowerManager"; VStr "^cINSTALL^:";
                             VStr ("id: " +:+ id l +:+ ", message: " +:+ log_message l)]])
           (uncaught st ++ [exn]).
Proof.
  intros Hid Hres. destruct st as [d k lg u]. unfold deliver. simpl.
  unfold invoke, bind, lift, write_log. simpl. rewrite Hid. simpl.
  destruct (get_prop (data l) "resolver") as [r|exn] eqn:Hr.
  - destruct (Hres r eq_refl) as [-> | ->]; simpl; eexists; reflexivity.
  - eexists; reflexivity.
Qed.

Lemma installAll_cached_without_resolver_witness :
  exists exn,
    deliver (installAll VUndefined) (EvLog (mkLog "cached" "jquery#3.1" VUndefined))
      (initial (installAll VUndefined)) =
    mkCall Q.Pending (Some ContinueLog)
           (logged (initial (installAll VUndefined)) ++
              [Entry LTrace [VStr "BowerManager"; VStr "^cINSTALL^:";
                             VStr "id: cached, message: jquery#3.1"]])
           [exn].
Proof.
  apply (installAll_cached_without_resolver VUndefined
           (mkLog "cached" "jquery#3.1" VUndefined) (initial (installAll VUndefined))).
  - reflexivity.
  - simpl. intros r H. discriminate H.
Defined.

(* ===================================================================== *)
(** ** Further properties of the configuration file operations *)
(* ===================================================================== *)

(** X7. When the write fails, [setConfigFile] rejects its promise with
    the error the file system reported, writes an error line and no ok
    marker, and leaves the disk as the failed write left it. *)
Theorem setConfigFile_write_failure (json : Json) (D : Type) (fs : Fs D)
    (config text : value) (disk disk' : D) (e : IError) :
  (if negb (String.eqb (typeof config) "string")
   then JSON_stringify config 2 else Normal config) = Normal text ->
  writeFile "bower.json" text disk = (Some e, disk') ->
  let st := fst (setConfigFile config disk) in
  defer st = Q.Rejected (of_error e) /\
  snd (setConfigFile config disk) = disk' /\
  length (lines_at LError (logged st)) = 1%nat /\
  lines_at LContinue (logged st) = [].
Proof.
  intros Htext Hwrite. unfold setConfigFile. rewrite Htext, Hwrite.
  repeat split.
Qed.

Lemma setConfigFile_write_failure_witness :
  let disk := MemFs.mkDisk ∅ true in
  let st := fst (setConfigFile (json := Ecma.json) (VStr "{}") disk) in
  defer st = Q.Rejected (of_error (MemFs.EROFS "bower.json")) /\
  snd (setConfigFile (json := Ecma.json) (VStr "{}") disk) = disk /\
  length (lines_at LError (logged st)) = 1%nat /\
  lines_at LContinue (logged st) = [].
Proof.
  apply (setConfigFile_write_failure Ecma.json MemFs.disk MemFs.fs
           (VStr "{}") (VStr "{}") (MemFs.mkDisk ∅ true) (MemFs.mkDisk ∅ true)
           (MemFs.EROFS "bower.json")); reflexivity.
Defined.

(** X8. When [JSON.stringify] throws, [setConfigFile] rejects its promise
    with the value thrown and never reaches [fs.writeFile]: the disk is
    untouched, whatever the file system is. *)
Theorem setConfigFile_serialisation_failure (json : Json) (D : Type) (fs : Fs D)
    (config exn : value) (disk : D) :
  typeof config <> "string" ->
  JSON_stringify config 2 = Throw exn ->
  defer (fst (setConfigFile config disk)) = Q.Rejected exn /\
  snd (setConfigFile config disk) = disk /\
  lines_at LContinue (logged (fst (setConfigFile config disk))) = [].
Proof.
  intros Htype Hthrow. apply String.eqb_neq in Htype.
  unfold setConfigFile. rewrite Htype, Hthrow. simpl.
  unfold invoke, bind, lift, defer_reject, write_log. simpl.
  destruct (get_prop exn "details"); repeat split.
Qed.

Lemma setConfigFile_serialisation_failure_witness :
  defer (fst (setConfigFile (json := circular_json) (VObj []) MemFs.empty))
  = Q.Rejected (TypeError "Converting circular structure to JSON") /\
  snd (setConfigFile (json := circular_json) (VObj []) MemFs.empty) = MemFs.empty /\
  lines_at LContinue
    (logged (fst (setConfigFile (json := circular_json) (VObj []) MemFs.empty))) = [].
Proof.
  apply (setConfigFile_serialisation_failure circular_json MemFs.disk MemFs.fs
           (VObj []) (TypeError "Converting circular structure to JSON") MemFs.empty).
  - simpl. discriminate.
  - reflexivity.
Defined.

(** X9. A configuration given as text comes back as that text: when a
    string that [JSON.parse] accepts is stored by [setConfigFile] and read
    back by the file system, [getConfigFile] fulfils its promise with the
    very string, not reformatted and not parsed. *)
Theorem config_text_roundtrip (json : Json) (D : Type) (fs : Fs D)
    (s : string) (parsed : value) (disk disk' : D) :
  JSON_parse s = Normal parsed ->
  writeFile "bower.json" (VStr s) disk = (None, disk') ->
  readFile "bower.json" "utf8" disk' = (None, VStr s) ->
  defer (fst (setConfigFile (VStr s) disk)) = Q.Fulfilled (VBool true) /\
  defer (getConfigFile (snd (setConfigFile (VStr s) disk))) = Q.Fulfilled (VStr s).
Proof.
  intros Hparse Hwrite Hread.
  destruct (setConfigFile_writes json D fs (VStr s) (VStr s) disk disk' None)
    as [Hdisk Hset]; [reflexivity|exact Hwrite|].
  split; [exact Hset|]. rewrite Hdisk.
  apply (getConfigFile_valid json D fs disk' (VStr s) parsed Hread Hparse).
Qed.

Lemma config_text_roundtrip_witness :
  defer (fst (setConfigFile (json := Ecma.json) (VStr "[1,  2]") MemFs.empty))
  = Q.Fulfilled (VBool true) /\
  defer (getConfigFile (json := Ecma.json)
           (snd (setConfigFile (json := Ecma.json) (VStr "[1,  2]") MemFs.empty)))
  = Q.Fulfilled (VStr "[1,  2]").
Proof.
  apply (config_text_roundtrip Ecma.json MemFs.disk MemFs.fs "[1,  2]"
           (VArr [VNum 1; VNum 2]) MemFs.empty
           (snd (MemFs.write "bower.json" (VStr "[1,  2]") MemFs.empty)));
    vm_compute; reflexivity.
Defined.

(* ===================================================================== *)
(** ** Further properties of the socket base service *)
(* ===================================================================== *)

Section RegistryLife.

Import BaseSrv.

Lemma present_key {V} (k : string) (m : EsMap.t V) :
  existsb (EsMap.has_key k) m = true -> In k (map fst (EsMap.entries m)).
Proof.
  induction m as [|[[k' v']|] m IH]; simpl; [discriminate| |exact IH].
  destruct (String.eqb_spec k k') as [->|Hne]; simpl; [now left|].
  intros H. right. exact (IH H).
Qed.

Lemma fresh_has_key {V} (k : string) (m : EsMap.t V) :
  ~ In k (map fst (EsMap.entries m)) -> existsb (EsMap.has_key k) m = false.
Proof.
  intros H. destruct (existsb (EsMap.has_key k) m) eqn:E; [|reflexivity].
  destruct (H (present_key k m E)).
Qed.

Lemma set_entries_fresh {V} (k : string) (v : V) (m : EsMap.t V) :
  existsb (EsMap.has_key k) m = false ->
  EsMap.entries (EsMap.set k v m) = EsMap.entries m ++ [(k, v)].
Proof.
  induction m as [|[[k' v']|] m IH]; simpl; [reflexivity| |exact IH].
  destruct (String.eqb k k'); simpl; [discriminate|].
  intros H. f_equal. exact (IH H).
Qed.

Lemma set_entries_In {V} (k : string) (v : V) (m : EsMap.t V) :
  In (k, v) (EsMap.entries (EsMap.set k v m)).
Proof.
  induction m as [|[[k' v']|] m IH]; simpl; [now left| |exact IH].
  destruct (String.eqb k k'); simpl; [now left|right; exact IH].
Qed.

Lemma filter_other_keys {V} (k : string) (l : list (string * V)) :
  ~ In k (map fst l) ->
  List.filter (fun kv => negb (String.eqb k (fst kv))) l = l.
Proof.
  induction l as [|[k' v'] l IH]; simpl; [reflexivity|].
  intros H. destruct (String.eqb_spec k k') as [->|Hne]; simpl; [tauto|].
  f_equal. apply IH. tauto.
Qed.

(** Deleting a key leaves the entries of the other keys, in their order. *)
Lemma delete_entries {V} (k : string) (m : EsMap.t V) :
  NoDup (map fst (EsMap.entries m)) ->
  EsMap.entries (EsMap.delete k m) =
  List.filter (fun kv => negb (String.eqb k (fst kv))) (EsMap.entries m).
Proof.
  induction m as [|[[k' v']|] m IH]; simpl; [reflexivity| |exact IH].
  intros Hnd. apply NoDup_cons in Hnd as [Hk' Hnd].
  destruct (String.eqb_spec k k') as [->|Hne]; simpl.
  - symmetry. apply filter_other_keys. now rewrite <- list_elem_of_In.
  - f_equal. exact (IH Hnd).
Qed.

(** X10. Clients that connect with distinct ids are all registered: after
    they connect to a service whose registry is well formed and holds
    none of their ids, the registry holds the former entries followed by
    one entry per client, in the order of connection, it is well formed,
    and every client just registered has the service's disconnect
    listener attached. *)
Theorem connect_all_registers (sockets : list Socket) (srv : service) :
  registry_ok (connections srv) ->
  NoDup (map fst (EsMap.entries (connections srv)) ++ map id sockets) ->
  let srv' := connect_all sockets srv in
  EsMap.entries (connections srv') =
    EsMap.entries (connections srv) ++
    map (fun s => (id s, mkSocket (id s) true (emits_within_disconnect s))) sockets /\
  EsMap.size (connections srv') = (EsMap.size (connections srv) + length sockets)%nat /\
  registry_ok (connections srv').
Proof.
  revert srv. induction sockets as [|s sockets IH]; intros srv Hok Hnd.
  - simpl. rewrite app_nil_r, Nat.add_0_r. auto.
  - assert (Hfresh : existsb (EsMap.has_key (id s)) (connections srv) = false).
    { apply fresh_has_key. intros Hin. apply NoDup_app in Hnd as (_ & Hdisj & _).
      apply (Hdisj (id s)); [now apply list_elem_of_In|]. simpl. left. }
    assert (Hentries : EsMap.entries (connections (_onClientConnect s srv)) =
                       EsMap.entries (connections srv) ++
                       [(id s, mkSocket (id s) true (emits_within_disconnect s))])
      by (simpl; now apply set_entries_fresh).
    destruct (onClientConnect_ok s srv Hok) as [Hok' _].
    destruct (IH (_onClientConnect s srv) Hok') as (He & Hs & Hr).
    { rewrite Hentries, map_app, <- app_assoc. exact Hnd. }
    change (connect_all (s :: sockets) srv)
      with (connect_all sockets (_onClientConnect s srv)).
    assert (Hsize : EsMap.size (connections (_onClientConnect s srv)) =
                    S (EsMap.size (connections srv))).
    { unfold EsMap.size. rewrite Hentries, length_app. simpl. lia. }
    cbv zeta. rewrite He, Hs, Hsize, Hentries, <- app_assoc. simpl.
    repeat split; [lia|apply Hr..].
Qed.

Lemma connect_all_registers_witness :
  let srv := connect_all [mkSocket "a" false true; mkSocket "b" false false]
               (create "bower" None) in
  EsMap.entries (connections srv) =
    [] ++ map (fun s => (id s, mkSocket (id s) true (emits_within_disconnect s)))
            [mkSocket "a" false true; mkSocket "b" false false] /\
  EsMap.size (connections srv) = (0 + 2)%nat /\
  registry_ok (connections srv).
Proof.
  apply (connect_all_registers [mkSocket "a" false true; mkSocket "b" false false]
           (create "bower" None)).
  - split; constructor.
  - apply (bool_decide_unpack _). vm_compute. reflexivity.
Defined.

(** X11. A client that connects under an id already registered replaces
    the socket filed under that id: the keys of the registry and their
    order stay as they were, so its size does not change, and the entry
    is the new socket, with the listener attached. *)
Theorem reconnect_replaces (socket : Socket) (srv : service) :
  In (id socket) (map fst (EsMap.entries (connections srv))) ->
  let srv' := _onClientConnect socket srv in
  map fst (EsMap.entries (connections srv')) = map fst (EsMap.entries (connections srv)) /\
  EsMap.size (connections srv') = EsMap.size (connections srv) /\
  In (id socket, mkSocket (id socket) true (emits_within_disconnect socket))
     (EsMap.entries (connections srv')).
Proof.
  intros Hin. simpl.
  assert (Hex : existsb (EsMap.has_key (id socket)) (connections srv) = true).
  { destruct (existsb _ _) eqn:E; [reflexivity|]. destruct (absent_key _ _ E Hin). }
  assert (Hkeys : map fst (EsMap.entries
                    (EsMap.set (id socket)
                       (mkSocket (id socket) true (emits_within_disconnect socket))
                       (connections srv)))
                  = map fst (EsMap.entries (connections srv)))
    by (now rewrite set_keys, Hex).
  split; [exact Hkeys|]. split; [|apply set_entries_In].
  unfold EsMap.size. now rewrite <- (length_map fst), Hkeys, length_map.
Qed.

Lemma reconnect_replaces_witness :
  let srv := _onClientConnect (mkSocket "a" false false) (create "bower" None) in
  let srv' := _onClientConnect (mkSocket "a" false true) srv in
  map fst (EsMap.entries (connections srv')) = map fst (EsMap.entries (connections srv)) /\
  EsMap.size (connections srv') = EsMap.size (connections srv) /\
  In ("a", mkSocket "a" true true) (EsMap.entries (connections srv')).
Proof.
  apply (reconnect_replaces (mkSocket "a" false true)
           (_onClientConnect (mkSocket "a" false false) (create "bower" None))).
  simpl. now left.
Defined.

(** X12. When a client disconnects, [_onClientDisconnect] removes the
    entry filed under its id and no other: the remaining entries keep
    their sockets and their order (nothing changes if the id is not
    registered).  The info line it writes gives the number of connections
    counted before the removal. *)
Theorem onClientDisconnect_removes (socket : Socket) (srv : service) :
  registry_ok (connections srv) ->
  let srv' := _onClientDisconnect socket srv in
  EsMap.entries (connections srv') =
    List.filter (fun kv => negb (String.eqb (id socket) (fst kv)))
      (EsMap.entries (connections srv)) /\
  registry_ok (connections srv') /\
  log srv' =
    log srv ++
    [Entry LInfo [VStr (name srv);
                  VStr ("Client disconnected. Now there are " +:+
                        string_of_Z (Z.of_nat (EsMap.size (connections srv))) +:+
                        " connection/s")];
     Entry LTrace [VStr (name srv);
                   VStr ("Client disconnected id '" +:+ id socket +:+ "'")]].
Proof.
  intros [Hnd Hid]. simpl.
  assert (He := delete_entries (id socket) (connections srv) Hnd).
  split; [exact He|]. split; [|now rewrite <- app_assoc].
  split; rewrite He.
  - clear He Hid. induction (EsMap.entries (connections srv)) as [|[k v] l IH];
      simpl; [constructor|].
    apply NoDup_cons in Hnd as [Hk Hnd].
    destruct (negb (String.eqb (id socket) k)); simpl; [|auto].
    apply NoDup_cons. split; [|auto].
    intros Hin. apply Hk. apply list_elem_of_In in Hin. apply list_elem_of_In.
    apply in_map_iff in Hin as ((k' & v') & Hk' & Hin).
    apply filter_In in Hin as [Hin _]. apply in_map_iff. eauto.
  - apply Forall_forall. intros kv Hin. rewrite Forall_forall in Hid.
    apply Hid. apply list_elem_of_In in Hin. apply list_elem_of_In.
    now apply filter_In in Hin as [Hin _].
Qed.

Lemma onClientDisconnect_removes_witness :
  let srv := connect_all [mkSocket "a" false true; mkSocket "b" false false]
               (create "bower" None) in
  EsMap.entries (connections (_onClientDisconnect (mkSocket "a" true true) srv)) =
    List.filter (fun kv => negb (String.eqb "a" (fst kv)))
      (EsMap.entries (connections srv)).
Proof.
  apply (onClientDisconnect_removes (mkSocket "a" true true)
           (connect_all [mkSocket "a" false true; mkSocket "b" false false]
              (create "bower" None))).
  split.
  - apply (bool_decide_unpack _). vm_compute. reflexivity.
  - simpl. repeat constructor.
Defined.

(** X13. Connecting and then disconnecting undo each other on the
    registry: when a client whose id is not registered connects and then
    disconnects, the registry has the entries it had before. *)
Theorem connect_then_disconnect (socket : Socket) (srv : service) :
  registry_ok (connections srv) ->
  ~ In (id socket) (map fst (EsMap.entries (connections srv))) ->
  EsMap.entries (connections (_onClientDisconnect socket (_onClientConnect socket srv)))
  = EsMap.entries (connections srv).
Proof.
  intros Hok Hfresh.
  destruct (onClientConnect_ok socket srv Hok) as [Hok' _].
  destruct (onClientDisconnect_removes socket (_onClientConnect socket srv) Hok')
    as [He _].
  rewrite He. simpl. rewrite set_entries_fresh by now apply fresh_has_key.
  rewrite List.filter_app. simpl. rewrite String.eqb_refl. simpl.
  rewrite app_nil_r. now apply filter_other_keys.
Qed.

Lemma connect_then_disconnect_witness :
  let srv := _onClientConnect (mkSocket "a" false true) (create "bower" None) in
  EsMap.entries (connections (_onClientDisconnect (mkSocket "b" false true)
                                (_onClientConnect (mkSocket "b" false true) srv)))
  = EsMap.entries (connections srv).
Proof.
  apply (connect_then_disconnect (mkSocket "b" false true)
           (_onClientConnect (mkSocket "a" false true) (create "bower" None))).
  - split; simpl; repeat constructor. intros H. inversion H.
  - simpl. intros [H|[]]. discriminate H.
Defined.

Lemma disconnectAll_name (srv srv' : service) :
  registry_ok (connections srv) ->
  disconnectAll srv = Some srv' -> name srv' = name srv.
Proof.
  intros [Hnd Hid] H. unfold disconnectAll in H.
  destruct (loop_spec (connections srv) []
              (write_log LTrace "Disconecting all..." srv)
              (length (connections srv)))
    as (srv1 & Hrun & _ & _ & Hn & _); auto.
  simpl in Hrun, Hn. simpl in H. rewrite Hrun in H.
  injection H as <-. exact Hn.
Qed.

(** X14. When no registered socket emits ["disconnect"] before
    [disconnect(true)] returns, [disconnectAll] on a well-formed registry
    calls [disconnect(true)] once on every registered socket, in the order
    of the registry, empties the registry, and ends its log with the line
    that gives the number of connections it disconnected. *)
Theorem disconnectAll_counts_connections (srv : service) :
  registry_ok (connections srv) ->
  Forall (fun kv => answers_within (snd kv) = false) (EsMap.entries (connections srv)) ->
  exists srv',
    disconnectAll srv = Some srv' /\
    disconnect_calls srv' =
      disconnect_calls srv ++
      map (fun kv => (id (snd kv), true)) (EsMap.entries (connections srv)) /\
    EsMap.size (connections srv') = 0%nat /\
    last (log srv') = Some (summary (name srv) (EsMap.size (connections srv))).
Proof.
  intros Hok Hquiet.
  destruct (disconnectAll_spec srv Hok) as (srv' & Hrun & Hcalls & Hsize & lines & Hlog).
  exists srv'. repeat split; auto.
  rewrite Hlog, !app_assoc, last_snoc. do 2 f_equal. unfold EsMap.size.
  f_equal. clear -Hquiet.
  induction (EsMap.entries (connections srv)) as [|kv l IH]; [reflexivity|].
  apply Forall_cons in Hquiet as [Hkv Hl]. simpl. rewrite Hkv. simpl.
  f_equal. exact (IH Hl).
Qed.

Lemma disconnectAll_counts_connections_witness :
  let srv := connect_all [mkSocket "a" false false; mkSocket "b" false false]
               (create "bower" None) in
  exists srv',
    disconnectAll srv = Some srv' /\
    disconnect_calls srv' = [] ++ [("a", true); ("b", true)] /\
    EsMap.size (connections srv') = 0%nat /\
    last (log srv') = Some (summary "bower" 2).
Proof.
  apply (disconnectAll_counts_connections
           (connect_all [mkSocket "a" false false; mkSocket "b" false false]
              (create "bower" None))).
  - split; [apply (bool_decide_unpack _); vm_compute; reflexivity|].
    simpl. repeat constructor.
  - simpl. repeat constructor.
Defined.

(** X15. [disconnectAll] may be called again: on a well-formed registry a
    second call, made right after the first, ends as well, calls
    [disconnect] on no socket, leaves the registry empty and logs
    ["Disconected 0"]. *)
Theorem disconnectAll_twice (srv : service) :
  registry_ok (connections srv) ->
  exists srv1 srv2,
    disconnectAll srv = Some srv1 /\
    disconnectAll srv1 = Some srv2 /\
    disconnect_calls srv2 = disconnect_calls srv1 /\
    EsMap.size (connections srv2) = 0%nat /\
    last (log srv2) = Some (summary (name srv) 0).
Proof.
  intros Hok.
  destruct (disconnectAll_spec srv Hok) as (srv1 & Hrun1 & _ & Hsize1 & _).
  assert (He : EsMap.entries (connections srv1) = [])
    by (apply nil_length_inv; exact Hsize1).
  assert (Hok1 : registry_ok (connections srv1))
    by (split; rewrite He; constructor).
  destruct (disconnectAll_spec srv1 Hok1) as (srv2 & Hrun2 & Hcalls & Hsize2 & lines & Hlog).
  exists srv1, srv2. rewrite He in Hcalls, Hlog. simpl in Hcalls, Hlog.
  rewrite app_nil_r in Hcalls. repeat split; auto.
  rewrite Hlog, !app_assoc, last_snoc.
  now rewrite (disconnectAll_name srv srv1 Hok Hrun1).
Qed.

Lemma disconnectAll_twice_witness :
  let srv := connect_all [mkSocket "a" false true; mkSocket "b" false false]
               (create "bower" None) in
  exists srv1 srv2,
    disconnectAll srv = Some srv1 /\
    disconnectAll srv1 = Some srv2 /\
    disconnect_calls srv2 = disconnect_calls srv1 /\
    EsMap.size (connections srv2) = 0%nat /\
    last (log srv2) = Some (summary "bower" 0).
Proof.
  apply (disconnectAll_twice
           (connect_all [mkSocket "a" false true; mkSocket "b" false false]
              (create "bower" None))).
  split; [apply (bool_decide_unpack _); vm_compute; reflexivity|].
  simpl. repeat constructor.
Defined.

End RegistryLife.

(* ===================================================================== *)
(** ** Properties of the requests of the REST base service *)
(* ===================================================================== *)

Section Requests.

Import RestClient.

Variable parseResult : string -> value -> value -> completion value.
Variable http : request -> answer.

(** X16. Where the data of a call travels: [_makeGet] sends it as the
    query parameters of a GET and sets no body; [_makePost], [_makePut]
    and [_makeDelete] send it as the body of a POST, PUT and DELETE and
    set no query parameters.  All four ask for the given url with the one
    header [Content-Type: application/json], whatever the configuration
    and whatever [$http] answers. *)
Theorem helpers_place_data (name : string) (address : string) (payload config : value) :
  let get := fst (_makeGet parseResult http name address payload config) in
  let post := fst (_makePost parseResult http name address payload config) in
  let put := fst (_makePut parseResult http name address payload config) in
  let delete := fst (_makeDelete parseResult http name address payload config) in
  (method get = "GET" /\ params get = Some payload /\ data get = None) /\
  (method post = "POST" /\ params post = None /\ data post = Some payload) /\
  (method put = "PUT" /\ params put = None /\ data put = Some payload) /\
  (method delete = "DELETE" /\ params delete = None /\ data delete = Some payload) /\
  Forall (fun req => url req = address /\
                     headers req = [("Content-Type", "application/json")])
         [get; post; put; delete].
Proof.
  cbv zeta. repeat split; repeat constructor.
Qed.

(** X17. What a request does to its deferred once [$http] has answered,
    in each of the three cases.  On success, the parse hook is called
    with the method name, the data of the call ([undefined] when that
    data is falsy) and the body of the response: when it returns, the
    deferred is resolved with its result and the shared value; when it
    throws, the deferred is left pending.  On failure the deferred is
    rejected with [{message: statusText, error: status}] and the shared
    value.  So a deferred is left pending exactly when the answer is a
    success and the parse hook throws on it. *)
Theorem request_settles (name type address : string) (payload config : value) :
  let '(req, d) := _makeRequest parseResult http name type address payload config in
  let shared := read (or_else config (VObj [])) "share" in
  let parsed := parseResult name (or_else payload VUndefined) (body (http req)) in
  match d with
  | Pending =>
      ok (http req) = true /\ exists exn, parsed = Throw exn
  | Resolved _ args =>
      ok (http req) = true /\
      exists result, parsed = Normal result /\ args = [result; shared]
  | Rejected _ args =>
      ok (http req) = false /\
      args = [VObj [("message", statusText (http req)); ("error", status (http req))];
              shared]
  end.
Proof.
  unfold _makeRequest, _onSuccess, _onError. cbv zeta.
  set (req := mkRequest _ _ _ _ _ _). simpl.
  destruct (ok (http req)) eqn:Hok.
  - destruct (parseResult name (or_else payload VUndefined) (body (http req)))
      as [result|exn] eqn:Hparse.
    + destruct (truthy (read (or_else config (VObj [])) "context")); simpl; eauto.
    + eauto.
  - destruct (truthy (read (or_else config (VObj [])) "context")); simpl; auto.
Qed.

(** X18. The context of the callbacks, for a parse hook that returns on
    the answer: a truthy [config.context] becomes the context the deferred
    is settled with, on success and on failure; when the configuration is
    omitted (or falsy), or its context is falsy, the deferred is settled
    without a context and, for an omitted configuration, with [undefined]
    as the shared value. *)
Theorem request_context (name type address : string) (payload config : value) :
  let d := snd (_makeRequest parseResult http name type address payload config) in
  let req := fst (_makeRequest parseResult http name type address payload config) in
  let context := read (or_else config (VObj [])) "context" in
  (ok (http req) = true ->
   exists result,
     parseResult name (or_else payload VUndefined) (body (http req)) = Normal result) ->
  (truthy context = true ->
     exists args, d = Resolved (Some context) args \/ d = Rejected (Some context) args) /\
  (truthy context = false ->
     exists args, d = Resolved None args \/ d = Rejected None args) /\
  (truthy config = false ->
     exists result, d = Resolved None [result; VUndefined] \/
                    d = Rejected None [result; VUndefined]).
Proof.
  unfold _makeRequest, _onSuccess, _onError. cbv zeta.
  set (req := mkRequest _ _ _ _ _ _). simpl. intros Hreturns.
  destruct (ok (http req)) eqn:Hok.
  - destruct (Hreturns eq_refl) as [result ->]. repeat split.
    + intros ->. simpl. eauto.
    + intros ->. simpl. eauto.
    + intros Hc. unfold or_else. rewrite Hc. simpl. eauto.
  - repeat split.
    + intros ->. simpl. eauto.
    + intros ->. simpl. eauto.
    + intros Hc. unfold or_else. rewrite Hc. simpl. eauto.
Qed.

End Requests.

Lemma request_context_witness :
  let http := fun _ : RestClient.request =>
                RestClient.mkAnswer true (VStr "body") (VNum 200) (VStr "OK") in
  (exists args,
     snd (RestClient._makeRequest RestClient._parseResult http "list" "GET" "/packages"
            VNull (VObj [("context", VStr "view")]))
     = RestClient.Resolved (Some (VStr "view")) args \/
     snd (RestClient._makeRequest RestClient._parseResult http "list" "GET" "/packages"
            VNull (VObj [("context", VStr "view")]))
     = RestClient.Rejected (Some (VStr "view")) args) /\
  (exists result,
     snd (RestClient._makeRequest RestClient._parseResult http "list" "GET" "/packages"
            VNull VUndefined)
     = RestClient.Resolved None [result; VUndefined] \/
     snd (RestClient._makeRequest RestClient._parseResult http "list" "GET" "/packages"
            VNull VUndefined)
     = RestClient.Rejected None [result; VUndefined]).
Proof.
  intros http. split.
  - destruct (request_context RestClient._parseResult http "list" "GET" "/packages"
                VNull (VObj [("context", VStr "view")])) as (H & _ & _).
    + intros _. exists (VStr "body"). reflexivity.
    + apply H. reflexivity.
  - destruct (request_context RestClient._parseResult http "list" "GET" "/packages"
                VNull VUndefined) as (_ & _ & H).
    + intros _. exists (VStr "body"). reflexivity.
    + apply H. reflexivity.
Defined.

(** X19. With the base [_parseResult], a successful request resolves with
    the body of the response as [$http] gave it, whatever the method name
    and the data of the call; a failed one is rejected with the same
    reason under every parse hook. *)
Theorem base_parseResult_keeps_body
  (http : RestClient.request -> RestClient.answer)
  (name type address : string) (payload config : value) :
  let '(req, d) := RestClient._makeRequest RestClient._parseResult http
                     name type address payload config in
  (RestClient.ok (http req) = true ->
   exists context shared,
     d = RestClient.Resolved context [RestClient.body (http req); shared]) /\
  (RestClient.ok (http req) = false ->
   forall parseResult,
     snd (RestClient._makeRequest parseResult http name type address payload config) = d).
Proof.
  unfold RestClient._makeRequest, RestClient._onSuccess, RestClient._onError,
    RestClient._parseResult. cbv zeta.
  set (req := RestClient.mkRequest _ _ _ _ _ _). simpl. split.
  - intros ->. destruct (truthy _); simpl; eauto.
  - intros Hko parseResult. fold req. rewrite Hko. reflexivity.
Qed.

Lemma base_parseResult_keeps_body_witness :
  let http := fun req : RestClient.request =>
                if String.eqb (RestClient.url req) "/packages"
                then RestClient.mkAnswer true (VArr [VStr "jquery"]) (VNum 200) (VStr "OK")
                else RestClient.mkAnswer false VNull (VNum 404) (VStr "Not Found") in
  (exists context shared,
     snd (RestClient._makeRequest RestClient._parseResult http "list" "GET" "/packages"
            VNull VUndefined)
     = RestClient.Resolved context [VArr [VStr "jquery"]; shared]) /\
  (forall parseResult,
     snd (RestClient._makeRequest parseResult http "show" "GET" "/none" VNull VUndefined)
     = RestClient.Rejected None
         [VObj [("message", VStr "Not Found"); ("error", VNum 404)]; VUndefined]).
Proof.
  intros http. split.
  - destruct (base_parseResult_keeps_body http "list" "GET" "/packages" VNull VUndefined)
      as [H _].
    apply H. reflexivity.
  - destruct (base_parseResult_keeps_body http "show" "GET" "/none" VNull VUndefined)
      as [_ H].
    apply H. reflexivity.
Defined.
